(** * AI-optimized content proxy (netlify/edge-functions/ai-proxy.ts)

    A shallow embedding of the edge function and of the pieces of the
    platform it calls (strings, regular expressions, [Headers], [Response],
    [fetch]), followed by the properties of the handler.

    Text is a list of code units.  The development covers the code units
    0..255 (Latin-1); on that range upper- and lower-casing, the white space
    class and the case-insensitive comparison of the regular expression
    engine are the ones of ECMAScript. *)

From Stdlib Require Import Ascii String List Bool Arith Lia.
Import ListNotations.

Set Implicit Arguments.

(** ** Text *)

Abbreviation text := (list ascii) (only parsing).

Definition str (s : string) : text := list_ascii_of_string s.

Definition code (c : ascii) : nat := nat_of_ascii c.

Definition dquote : ascii := ascii_of_nat 34.
Definition squote : ascii := ascii_of_nat 39.

(** [String.prototype.toUpperCase] and [toLowerCase] on one code unit.  The
    letters of Latin-1 whose other case lies outside Latin-1 (U+00B5, U+00DF,
    U+00FF) are left alone: nothing in 0..255 shares their case class. *)
Definition to_upper (c : ascii) : ascii :=
  let n := code c in
  if ((97 <=? n) && (n <=? 122)) || ((224 <=? n) && (n <=? 254) && negb (n =? 247))
  then ascii_of_nat (n - 32) else c.

Definition to_lower (c : ascii) : ascii :=
  let n := code c in
  if ((65 <=? n) && (n <=? 90)) || ((192 <=? n) && (n <=? 222) && negb (n =? 215))
  then ascii_of_nat (n + 32) else c.

(** Byte-lowercase, as the Fetch standard uses for header names. *)
Definition byte_lower (c : ascii) : ascii :=
  let n := code c in
  if (65 <=? n) && (n <=? 90) then ascii_of_nat (n + 32) else c.

Definition toLowerCase (s : text) : text := map to_lower s.

(** White space of ECMAScript (WhiteSpace and LineTerminator) below 256. *)
Definition is_space (c : ascii) : bool :=
  let n := code c in
  ((9 <=? n) && (n <=? 13)) || (n =? 32) || (n =? 160).

Fixpoint text_eqb (a b : text) : bool :=
  match a, b with
  | [], [] => true
  | x :: a', y :: b' => Ascii.eqb x y && text_eqb a' b'
  | _, _ => false
  end.

Fixpoint starts_with (p s : text) : bool :=
  match p, s with
  | [], _ => true
  | x :: p', y :: s' => Ascii.eqb x y && starts_with p' s'
  | _ :: _, [] => false
  end.

(** [String.prototype.includes] with a string argument. *)
Fixpoint includes (s p : text) : bool :=
  starts_with p s ||
  match s with
  | [] => false
  | _ :: s' => includes s' p
  end.

(** [String.prototype.endsWith]. *)
Definition endsWith (s p : text) : bool :=
  (length p <=? length s) && text_eqb (skipn (length s - length p) s) p.

(** [String.prototype.replace] with a string pattern and a replacement
    without dollar patterns: the first occurrence is replaced. *)
Fixpoint replace_first (s p r : text) : text :=
  if starts_with p s then r ++ skipn (length p) s
  else match s with
       | [] => []
       | c :: s' => c :: replace_first s' p r
       end.

Fixpoint drop_while (f : ascii -> bool) (s : text) : text :=
  match s with
  | [] => []
  | c :: s' => if f c then drop_while f s' else s
  end.

(** [String.prototype.trim]. *)
Definition trim (s : text) : text :=
  rev (drop_while is_space (rev (drop_while is_space s))).

(** ** Regular expressions

    The abstract syntax of the patterns the source uses, and the backtracking
    matcher of ECMAScript (continuation passing, leftmost start, the order of
    alternatives given by greedy and lazy quantifiers).  All expressions of
    the source carry the [i] flag and not the [u] flag, so characters are
    compared after [Canonicalize], which is [to_upper] on one code unit. *)

Inductive citem : Type :=
| CChar (c : ascii)
| CRange (lo hi : ascii)
| CSpace
| CNonSpace.

(** The captures of the groups so far, the state of the matcher (the text
    still to read and the captures) and its continuations. *)
Abbreviation captures := (list (nat * text)) (only parsing).
Abbreviation mstate := (text * captures)%type (only parsing).
Abbreviation cont := (mstate -> option mstate) (only parsing).

Inductive regex : Type :=
| Eps
| Chr (c : ascii)
| Cls (neg : bool) (items : list citem)
| Seq (r1 r2 : regex)
| Grp (n : nat) (r : regex)
| Bref (n : nat)
| Star (greedy : bool) (r : regex)
| Opt (greedy : bool) (r : regex).

Definition Plus (greedy : bool) (r : regex) : regex := Seq r (Star greedy r).

Fixpoint lit (s : text) : regex :=
  match s with
  | [] => Eps
  | c :: s' => Seq (Chr c) (lit s')
  end.

Fixpoint seqs (rs : list regex) : regex :=
  match rs with
  | [] => Eps
  | r :: rs' => Seq r (seqs rs')
  end.

Definition canon (c : ascii) : ascii := to_upper c.

Definition item_has (i : citem) (a : ascii) : bool :=
  match i with
  | CChar c => Ascii.eqb a c
  | CRange lo hi => (code lo <=? code a) && (code a <=? code hi)
  | CSpace => is_space a
  | CNonSpace => negb (is_space a)
  end.

Definition items_have (items : list citem) (a : ascii) : bool :=
  existsb (fun i => item_has i a) items.

Section Matcher.

(** The [i] flag of the expression. *)
Variable icase : bool.

Definition char_eq (x c : ascii) : bool :=
  if icase then Ascii.eqb (canon x) (canon c) else Ascii.eqb x c.

(** Under the [i] flag a class matches [x] when one of its members has the
    canonical form of [x]; the members with that form are [x], [to_upper x]
    and [to_lower x]. *)
Definition cls_match (neg : bool) (items : list citem) (x : ascii) : bool :=
  xorb neg
    (if icase then
       items_have items x || items_have items (to_upper x)
       || items_have items (to_lower x)
     else items_have items x).

Fixpoint capture (n : nat) (cs : captures) : option text :=
  match cs with
  | [] => None
  | (m, g) :: cs' => if m =? n then Some g else capture n cs'
  end.

Fixpoint groups (r : regex) : list nat :=
  match r with
  | Eps | Chr _ | Cls _ _ | Bref _ => []
  | Seq r1 r2 => groups r1 ++ groups r2
  | Grp n r1 => n :: groups r1
  | Star _ r1 | Opt _ r1 => groups r1
  end.

Definition clear (ns : list nat) (cs : captures) : captures :=
  filter (fun p => negb (existsb (Nat.eqb (fst p)) ns)) cs.

(** The text between two positions of the input, the second a suffix of the
    first. *)
Definition consumed (s s' : text) : text := firstn (length s - length s') s.

Fixpoint ci_prefix (g s : text) : bool :=
  match g, s with
  | [] , _ => true
  | c :: g', x :: s' => char_eq x c && ci_prefix g' s'
  | _ :: _, [] => false
  end.

Fixpoint rmatch (r : regex) (st : mstate) (k : cont) {struct r} : option mstate :=
  match r with
  | Eps => k st
  | Chr c =>
      match fst st with
      | x :: s => if char_eq x c then k (s, snd st) else None
      | [] => None
      end
  | Cls neg items =>
      match fst st with
      | x :: s => if cls_match neg items x then k (s, snd st) else None
      | [] => None
      end
  | Seq r1 r2 => rmatch r1 st (fun st1 => rmatch r2 st1 k)
  | Grp n r1 =>
      rmatch r1 st
        (fun st1 => k (fst st1, (n, consumed (fst st) (fst st1)) :: snd st1))
  | Bref n =>
      match capture n (snd st) with
      | None => k st
      | Some g =>
          if ci_prefix g (fst st) then k (skipn (length g) (fst st), snd st)
          else None
      end
  | Star greedy r1 =>
      (fix loop (fuel : nat) (st : mstate) {struct fuel} : option mstate :=
         match fuel with
         | 0 => k st
         | S fuel' =>
             let again st1 :=
               if length (fst st1) <? length (fst st) then loop fuel' st1
               else None in
             if greedy then
               match rmatch r1 (fst st, clear (groups r1) (snd st)) again with
               | Some res => Some res
               | None => k st
               end
             else
               match k st with
               | Some res => Some res
               | None => rmatch r1 (fst st, clear (groups r1) (snd st)) again
               end
         end) (S (length (fst st))) st
  | Opt greedy r1 =>
      let once st1 :=
        if length (fst st1) <? length (fst st) then k st1 else None in
      if greedy then
        match rmatch r1 (fst st, clear (groups r1) (snd st)) once with
        | Some res => Some res
        | None => k st
        end
      else
        match k st with
        | Some res => Some res
        | None => rmatch r1 (fst st, clear (groups r1) (snd st)) once
        end
  end.

(** The result of [RegExp.prototype.exec] without the [g] flag: the index of
    the leftmost start at which the matcher succeeds, the matched text, the
    text after it and the captures. *)
Record match_result : Type := MatchResult {
  m_index : nat;
  m_text : text;
  m_after : text;
  m_caps : captures
}.

Fixpoint exec_from (r : regex) (i : nat) (s : text) : option match_result :=
  match rmatch r (s, []) (fun st => Some st) with
  | Some st => Some (MatchResult i (consumed s (fst st)) (fst st) (snd st))
  | None =>
      match s with
      | [] => None
      | _ :: s' => exec_from r (S i) s'
      end
  end.

Definition exec (r : regex) (s : text) : option match_result := exec_from r 0 s.

(** [RegExp.prototype.test]. *)
Definition test (r : regex) (s : text) : bool :=
  match exec r s with Some _ => true | None => false end.

(** [GetSubstitution] for an expression without capture groups: [$$], [$&],
    [$`] and [$'] are expanded, every other character is copied. *)
Fixpoint getSubstitution (matched before after repl : text) : text :=
  match repl with
  | [] => []
  | c :: t =>
      if Ascii.eqb c "$"%char then
        match t with
        | d :: t' =>
            if Ascii.eqb d "$"%char then "$"%char :: getSubstitution matched before after t'
            else if Ascii.eqb d "&"%char then matched ++ getSubstitution matched before after t'
            else if Ascii.eqb d "`"%char then before ++ getSubstitution matched before after t'
            else if Ascii.eqb d squote then after ++ getSubstitution matched before after t'
            else c :: getSubstitution matched before after t
        | [] => [c]
        end
      else c :: getSubstitution matched before after t
  end.

(** [String.prototype.replace] with an expression without the [g] flag and
    without groups, and a replacement string. *)
Definition replace_regex (s : text) (r : regex) (repl : text) : text :=
  match exec r s with
  | None => s
  | Some m =>
      let before := firstn (m_index m) s in
      before ++ getSubstitution (m_text m) before (m_after m) repl ++ m_after m
  end.

(** [String.prototype.replace] with an expression carrying the [g] flag: the
    matches are found from left to right, each search starting where the
    previous match ended (one character further after an empty match). *)
Fixpoint replace_global (fuel : nat) (r : regex) (repl before s : text) : text :=
  match fuel with
  | 0 => s
  | S fuel' =>
      let step :=
        match s with
        | [] => []
        | c :: s' => c :: replace_global fuel' r repl (before ++ [c]) s'
        end in
      match rmatch r (s, []) (fun st => Some st) with
      | Some st =>
          match consumed s (fst st) with
          | [] => getSubstitution [] before s repl ++ step
          | mt =>
              getSubstitution mt before (fst st) repl
                ++ replace_global fuel' r repl (before ++ mt) (fst st)
          end
      | None => step
      end
  end.

Definition replace_all (s : text) (r : regex) (repl : text) : text :=
  replace_global (S (length s)) r repl [] s.

End Matcher.

(** The syntax characters of a pattern. *)
Definition syntax_chars : text := str "^$\.*+?()[]{}|".

Definition is_syntax_char (c : ascii) : bool :=
  existsb (Ascii.eqb c) syntax_chars.

(** The pattern texts made of pattern characters and identity escapes only
    (a backslash before a syntax character or a slash); [None] on any other
    pattern text. *)
Fixpoint pattern_atoms (src : text) : option regex :=
  match src with
  | [] => Some Eps
  | c :: t =>
      if Ascii.eqb c "\"%char then
        match t with
        | d :: t' =>
            if is_syntax_char d || Ascii.eqb d "/"%char then
              option_map (Seq (Chr d)) (pattern_atoms t')
            else None
        | [] => None
        end
      else if is_syntax_char c then None
      else option_map (Seq (Chr c)) (pattern_atoms t)
  end.

Definition never : regex := Cls false [].

Definition literal_pattern (src : text) : regex :=
  match pattern_atoms src with
  | Some r => r
  | None => never
  end.

(** ** Constants and helper functions of the source *)

Definition CHATGPT_UA_RE : regex := literal_pattern (str "ChatGPT-User\/1\.0").
Definition GPTBOT_UA_RE : regex := literal_pattern (str "GPTBot\/1\.0").
Definition GOOGLE_EXTENDED_RE : regex := literal_pattern (str "Google-Extended").
Definition BING_PREVIEW_RE : regex := literal_pattern (str "bingpreview").
Definition PERPLEXITY_UA_RE : regex := literal_pattern (str "PerplexityBot").
Definition CLAUDE_USER_RE : regex := literal_pattern (str "Claude-User").
Definition CLAUDE_WEB_RE : regex := literal_pattern (str "Claude-Web").
Definition CLAUDE_BOT_RE : regex := literal_pattern (str "ClaudeBot").

Definition BYPASS_EDGE_FUNCTION_HEADER : text := str "X-Internal-Fetch".

(** The detection flags of the handler (lines 67 to 84); [qsAgent] is the
    lower-cased [user-agent] query parameter, when there is one. *)
Definition isChatGPT (ua : text) (qsAgent : option text) : bool :=
  test true CHATGPT_UA_RE ua
  || match qsAgent with
     | Some q => text_eqb q (str "chatgpt")
     | None => false
     end.
Definition isGPTBot (ua : text) : bool := test true GPTBOT_UA_RE ua.
Definition isGoogleExtended (ua : text) : bool := test true GOOGLE_EXTENDED_RE ua.
Definition isBingPreview (ua : text) : bool := test true BING_PREVIEW_RE ua.
Definition isPerplexity (ua : text) : bool := test true PERPLEXITY_UA_RE ua.
Definition isClaudeUser (ua : text) : bool := test true CLAUDE_USER_RE ua.
Definition isClaudeWeb (ua : text) : bool := test true CLAUDE_WEB_RE ua.
Definition isClaudeBot (ua : text) : bool := test true CLAUDE_BOT_RE ua.

Definition isAIVisitor (ua : text) (qsAgent : option text) : bool :=
  isChatGPT ua qsAgent
  || isGPTBot ua
  || isGoogleExtended ua
  || isBingPreview ua
  || isPerplexity ua
  || isClaudeUser ua
  || isClaudeWeb ua
  || isClaudeBot ua.

Definition determineBotType
    (isChatGPT isGPTBot isGoogleExtended isBingPreview isPerplexity
     isClaudeUser isClaudeWeb isClaudeBot : bool) : text :=
  if isChatGPT then str "ChatGPT-User"
  else if isGPTBot then str "GPTBot"
  else if isGoogleExtended then str "Google-Extended"
  else if isBingPreview then str "BingPreview"
  else if isPerplexity then str "PerplexityBot"
  else if isClaudeUser then str "Claude-User"
  else if isClaudeWeb then str "Claude-Web"
  else if isClaudeBot then str "ClaudeBot"
  else str "Unknown".

(** [/[.*+?^${}()|[\]\\]/g] *)
Definition ESCAPE_RE : regex :=
  Cls false (map CChar (str ".*+?^${}()|[]\")).

Definition escapeRegExp (s : text) : text :=
  replace_all false s ESCAPE_RE (str "\$&").

(** The expression of [extractElementOuterHTMLById], with flag [i]:
    [<([a-zA-Z0-9:-]+)([^*>]*\s)?id=(Q)ID\3[^>]*>([\s\S]*?)<\/\1\s*>]
    where [Q] is the class of the double and the single quote and [ID] the
    escaped identifier.  It is written in three parts: the opening tag up to
    its closing angle, the content, the closing tag. *)
Definition tag_name_class : list citem :=
  [CRange "a" "z"; CRange "A" "Z"; CRange "0" "9"; CChar ":"; CChar "-"]%char.

Definition any_char : list citem := [CSpace; CNonSpace].

Definition opening_parts (id : text) : list regex :=
  [ Chr "<";
    Grp 1 (Plus true (Cls false tag_name_class));
    Opt true (Grp 2 (Seq (Star true (Cls true [CChar "*"; CChar ">"]))
                         (Cls false [CSpace])));
    lit (str "id=");
    Grp 3 (Cls false [CChar dquote; CChar squote]);
    literal_pattern (escapeRegExp id);
    Bref 3;
    Star true (Cls true [CChar ">"]);
    Chr ">" ]%char.

Definition content_re : regex := Grp 4 (Star false (Cls false any_char)).

Definition closing_parts : list regex :=
  [ lit (str "</"); Bref 1; Star true (Cls false [CSpace]); Chr ">" ]%char.

Definition element_re (id : text) : regex :=
  seqs (opening_parts id ++ content_re :: closing_parts).

Definition extractElementOuterHTMLById (html id : text) : text :=
  match exec true (element_re id) html with
  | Some m => m_text m
  | None => []
  end.

Definition bodyCloseRegex : regex := literal_pattern (str "<\/body>").

Definition injectHTML (originalHTML injectedHTML : text) : text :=
  if test true bodyCloseRegex originalHTML then
    replace_regex true originalHTML bodyCloseRegex (injectedHTML ++ str "</body>")
  else originalHTML ++ injectedHTML.

(** ** The platform: headers, URLs, requests, responses *)

(** A [Headers] object: the list of its entries in order.  Names are compared
    byte-case-insensitively and a name may occur several times; an entry
    keeps the spelling of the name it was created with.  Values are taken as
    the platform stores them (already normalized and valid). *)
Abbreviation Headers := (list (text * text)) (only parsing).

Definition name_eqb (a b : text) : bool :=
  text_eqb (map byte_lower a) (map byte_lower b).

Fixpoint join (sep : text) (l : list text) : text :=
  match l with
  | [] => []
  | [v] => v
  | v :: l' => v ++ sep ++ join sep l'
  end.

Definition header_values (h : Headers) (name : text) : list text :=
  map snd (filter (fun p => name_eqb (fst p) name) h).

(** [Headers.prototype.get]: the values of the name joined by a comma and a
    space, or [null]. *)
Definition Headers_get (h : Headers) (name : text) : option text :=
  match header_values h name with
  | [] => None
  | vs => Some (join (str ", ") vs)
  end.

(** [Headers.prototype.delete]. *)
Definition Headers_delete (h : Headers) (name : text) : Headers :=
  filter (fun p => negb (name_eqb (fst p) name)) h.

(** [Headers.prototype.set]: the first entry of the name takes the value and
    the others are removed; without such an entry one is appended. *)
Fixpoint Headers_set (h : Headers) (name value : text) : Headers :=
  match h with
  | [] => [(name, value)]
  | (n, v) :: h' =>
      if name_eqb n name then (n, value) :: Headers_delete h' name
      else (n, v) :: Headers_set h' name value
  end.

(** [new Headers(h)]: a copy, so that the original is not changed by what
    is done to the copy. *)
Definition Headers_copy (h : Headers) : Headers := h.

(** A parsed URL, with the components the source reads. *)
Record URL : Type := mkURL {
  href : text;
  origin : text;
  pathname : text;
  search : text;
  searchParams : list (text * text)
}.

(** [URLSearchParams.prototype.get]. *)
Fixpoint searchParams_get (ps : list (text * text)) (name : text) : option text :=
  match ps with
  | [] => None
  | (n, v) :: ps' => if text_eqb n name then Some v else searchParams_get ps' name
  end.

Inductive Error : Type :=
| TypeError
| RangeError
| OtherError (msg : text).

(** A body: none, a stream that delivers a text, or a stream that fails while
    it is read.  A body is a value here: it can be handed on and read more
    than once (the platform's single-use streams are not modelled). *)
Inductive Body : Type :=
| NoBody
| TextBody (t : text)
| BrokenBody (e : Error).

Inductive RedirectMode : Type := Follow | Manual.

(** A request.  [url] is the parsed form of [request.url], which the platform
    always serializes from a parsed URL. *)
Record Request : Type := mkRequest {
  url : URL;
  method : text;
  headers : Headers;
  body : Body;
  redirect : RedirectMode
}.

Record Response : Type := mkResponse {
  status : nat;
  statusText : text;
  resp_headers : Headers;
  resp_body : Body
}.

Record Context : Type := mkContext {
  ip : option text;
  geo_country_code : option text
}.

Inductive Result (A : Type) : Type :=
| Ok (a : A)
| Raise (e : Error).
Arguments Ok {A} a.
Arguments Raise {A} e.

Definition ok (r : Response) : bool := (200 <=? status r) && (status r <=? 299).

Definition null_body_status (n : nat) : bool :=
  existsb (Nat.eqb n) [101; 103; 204; 205; 304].

(** [new Response(body, init)] of the Fetch standard: the status must lie in
    200..599 and a null body status takes no body; a string body without a
    content type in [init.headers] gets the default one.  The status text
    always comes from another response and is taken as valid. *)
Definition Response_new (b : Body) (from_string : bool)
    (st : nat) (stText : text) (h : Headers) : Result Response :=
  if negb ((200 <=? st) && (st <=? 599)) then Raise RangeError
  else
    match b with
    | NoBody => Ok (mkResponse st stText (Headers_copy h) NoBody)
    | _ =>
        if null_body_status st then Raise TypeError
        else
          let h' :=
            if from_string then
              match Headers_get h (str "content-type") with
              | None => Headers_copy h ++ [(str "content-type", str "text/plain;charset=UTF-8")]
              | Some _ => Headers_copy h
              end
            else Headers_copy h in
          Ok (mkResponse st stText h' b)
    end.

(** [Response.prototype.text]. *)
Definition Response_text (r : Response) : Result text :=
  match resp_body r with
  | NoBody => Ok []
  | TextBody t => Ok t
  | BrokenBody e => Raise e
  end.

Definition or_empty (o : option text) : text :=
  match o with Some t => t | None => [] end.

(** The truthiness of a string or [null]/[undefined]. *)
Definition truthy (o : option text) : bool :=
  match o with Some (_ :: _) => true | _ => false end.

Definition isHTMLResponse (resp : Response) : bool :=
  let ct := or_empty (Headers_get (resp_headers resp) (str "content-type")) in
  includes ct (str "text/html").

Definition finalizeResponse (resp : Response) (varyUA aiVariant : bool)
  : Result Response :=
  let newHeaders := Headers_copy (resp_headers resp) in
  let newHeaders := Headers_delete newHeaders (str "content-length") in
  let newHeaders :=
    if varyUA then
      let prev := Headers_get newHeaders (str "Vary") in
      Headers_set newHeaders (str "Vary")
        (if truthy prev then or_empty prev ++ str ", User-Agent"
         else str "User-Agent")
    else newHeaders in
  let newHeaders :=
    if aiVariant then
      Headers_set
        (Headers_set newHeaders (str "Cache-Control") (str "private, no-store, max-age=0"))
        (str "Pragma") (str "no-cache")
    else newHeaders in
  Response_new (resp_body resp) false (status resp) (statusText resp) newHeaders.

(** ** Effects

    A computation produces the trace of what it did (the requests handed to
    [fetch] and the console lines) and completes normally, by a throw, or
    never (it awaits a promise that does not settle).  In the console texts
    the arrow of the source is written [->]. *)

Inductive Promise (A : Type) : Type :=
| Resolved (a : A)
| Rejected (e : Error)
| Pending.
Arguments Resolved {A} a.
Arguments Rejected {A} e.
Arguments Pending {A}.

Inductive LogArg : Type :=
| LText (t : text)
| LNum (n : nat)
| LError (e : Error).

Inductive Event : Type :=
| EvFetch (r : Request)
| EvLog (args : list LogArg)
| EvError (args : list LogArg).

Inductive Completion (A : Type) : Type :=
| Normal (a : A)
| Throw (e : Error)
| Never.
Arguments Normal {A} a.
Arguments Throw {A} e.
Arguments Never {A}.

Definition M (A : Type) : Type := list Event * Completion A.

Definition ret {A} (a : A) : M A := ([], Normal a).

Definition bind {A B} (m : M A) (f : A -> M B) : M B :=
  match m with
  | (t, Normal a) => let (t', c) := f a in (t ++ t', c)
  | (t, Throw e) => (t, Throw e)
  | (t, Never) => (t, Never)
  end.

Declare Scope js_scope.
Delimit Scope js_scope with js.
Notation "x <- m ;; k" := (bind m (fun x => k))
  (at level 61, m at next level, right associativity) : js_scope.
Notation "m ;; k" := (bind m (fun _ => k))
  (at level 61, right associativity) : js_scope.
Open Scope js_scope.

Definition throw {A} (e : Error) : M A := ([], Throw e).

Definition lift {A} (r : Result A) : M A :=
  match r with
  | Ok a => ret a
  | Raise e => throw e
  end.

Definition console_log (args : list LogArg) : M unit := ([EvLog args], Normal tt).
Definition console_error (args : list LogArg) : M unit := ([EvError args], Normal tt).

(** [await p]. *)
Definition await {A} (p : Promise A) : M A :=
  match p with
  | Resolved a => ret a
  | Rejected e => throw e
  | Pending => ([], Never)
  end.

(** [try { m } catch (e) { h e }]. *)
Definition try_catch {A} (m : M A) (h : Error -> M A) : M A :=
  match m with
  | (t, Throw e) => let (t', c) := h e in (t ++ t', c)
  | _ => m
  end.

(** The call of an [async] function whose body ends in [return p] for a
    promise [p]: the call itself always returns a promise, rejected when the
    body throws and pending when the body never completes. *)
Definition async {A} (body : M (Promise A)) : list Event * Promise A :=
  match body with
  | (t, Normal p) => (t, p)
  | (t, Throw e) => (t, Rejected e)
  | (t, Never) => (t, Pending)
  end.

(** [p.catch(h)] on a promise that nobody awaits: [h] runs if and when [p]
    is rejected.  Its console lines are put in the trace at the place of the
    call; the completion does not depend on [p]. *)
Definition detached_catch {A} (p : Promise A) (h : Error -> list Event) : M unit :=
  (match p with Rejected e => h e | _ => [] end, Normal tt).

Definition fetches (t : list Event) : list Request :=
  flat_map (fun ev => match ev with EvFetch r => [r] | _ => [] end) t.

(** ** JSON.stringify on the telemetry payload *)

Definition hex_digit (n : nat) : ascii := nth n (str "0123456789abcdef") "0"%char.

Definition json_escape (c : ascii) : text :=
  let n := code c in
  if n =? 34 then ["\"%char; dquote]
  else if n =? 92 then str "\\"
  else if n =? 8 then str "\b"
  else if n =? 12 then str "\f"
  else if n =? 10 then str "\n"
  else if n =? 13 then str "\r"
  else if n =? 9 then str "\t"
  else if n <? 32 then str "\u00" ++ [hex_digit (n / 16); hex_digit (n mod 16)]
  else [c].

Definition json_string (t : text) : text :=
  dquote :: flat_map json_escape t ++ [dquote].

Fixpoint json_members (ms : list (text * text)) : text :=
  match ms with
  | [] => []
  | [(k, v)] => json_string k ++ ":"%char :: v
  | (k, v) :: ms' => json_string k ++ ":"%char :: v ++ ","%char :: json_members ms'
  end.

Definition json_object (ms : list (text * text)) : text :=
  "{"%char :: json_members ms ++ ["}"%char].

(** ** The edge function *)

Definition EXTERNAL_API_URL : text :=
  str "https://22i9zfydr3.execute-api.us-west-2.amazonaws.com/prod/event_stream".

(** [o === s] for a string or [null]/[undefined] [o]. *)
Definition is_text (o : option text) (s : text) : bool :=
  match o with Some v => text_eqb v s | None => false end.

Section Handler.

(** [Deno.env.get("ORGANIZATION_ID") || ""] *)
Variable ORGANIZATION_ID : text.
(** The platform's [fetch]: the promise a request gets. *)
Variable fetch : Request -> Promise Response.
(** [new URL(s)] and [new URL(s, base)]; [None] when they throw. *)
Variable parseURL : text -> option URL.
Variable resolveURL : text -> text -> option URL.
(** The value of [crypto.randomUUID()] in this invocation. *)
Variable randomUUID : text.

Definition ALT_ORIGIN : text :=
  match ORGANIZATION_ID with
  | [] => []
  | _ => str "https://salespeak-public-serving.s3.amazonaws.com/" ++ ORGANIZATION_ID
  end.

(** [fetch(r)] and [fetch(u, init)] for a parsed URL [u]: the request is
    handed to the platform, a promise comes back. *)
Definition fetch_call (r : Request) : M (Promise Response) :=
  ([EvFetch r], Normal (fetch r)).

(** [fetch(s, init)] for a URL text: an unparsable URL rejects the promise. *)
Definition fetch_text (s : text) (m : text) (h : Headers) (b : Body)
  : M (Promise Response) :=
  match parseURL s with
  | Some u => fetch_call (mkRequest u m h b Follow)
  | None => ret (Rejected TypeError)
  end.

Definition new_URL (s : text) : M URL :=
  match parseURL s with
  | Some u => ret u
  | None => throw TypeError
  end.

Definition new_URL_base (s base : text) : M URL :=
  match resolveURL s base with
  | Some u => ret u
  | None => throw TypeError
  end.

(** The call of an async function, as a step of the caller. *)
Definition call {A} (r : list Event * Promise A) : M (Promise A) :=
  (fst r, Normal (snd r)).

Definition fetchWithHost (origin : text) (originalURL : URL) (req : Request)
    (fixHost logURL bypassEdgeFunction : bool) : list Event * Promise Response :=
  async (
    proxied <- new_URL (origin ++ pathname originalURL ++ search originalURL) ;;
    (if logURL then console_log [LText (str "Fetching ->"); LText (href proxied)]
     else ret tt) ;;
    let headers0 := Headers_copy (headers req) in
    let headers1 :=
      if true || bypassEdgeFunction
      then Headers_set headers0 BYPASS_EDGE_FUNCTION_HEADER (str "true")
      else headers0 in
    let headers2 :=
      if fixHost
      then Headers_set headers1 (str "host") (replace_first origin (str "https://") [])
      else headers1 in
    fetch_call
      (mkRequest proxied (method req) headers2
         (if text_eqb (method req) (str "GET") || text_eqb (method req) (str "HEAD")
          then NoBody else body req)
         Manual)).

Definition telemetry_payload (u : URL) (botType clientIp country : text) : text :=
  json_object
    [ (str "data",
       json_object
         [ (str "launcher", json_string (str "proxy"));
           (str "url", json_string (href u));
           (str "bot_type", json_string botType);
           (str "client_ip", json_string clientIp);
           (str "country", json_string country) ]);
      (str "event_type", json_string (str "chatgpt_user_agent"));
      (str "url", json_string (href u));
      (str "user_id", json_string randomUUID);
      (str "campaign_id", json_string (str "00000000-0000-0000-0000-000000000000"));
      (str "organization_id", json_string ORGANIZATION_ID) ].

Definition telemetry_headers : Headers :=
  [ (str "Content-Type", str "application/json");
    (str "User-Agent", str "PostmanRuntime/7.32.2") ].

(** Lines 96 to 134: the event is posted and the promise is left alone, but
    for the [catch] that writes a console line. *)
Definition emitTelemetry (u : URL) (botType clientIp country : text) : M unit :=
  p <- fetch_text EXTERNAL_API_URL (str "POST") telemetry_headers
         (TextBody (telemetry_payload u botType clientIp country)) ;;
  detached_catch p
    (fun err => [EvError [LText (str "Failed to POST event:"); LError err]]).

(** Lines 144 to 156: the fragment of the secondary store. *)
Definition fetchFragment (u : URL) (request : Request) : M text :=
  p <- call (fetchWithHost ALT_ORIGIN u request false true false) ;;
  altResp <- await p ;;
  console_log [LText (str "ALT status"); LNum (status altResp); LText (str "for");
               LText (pathname u ++ search u)] ;;
  injectedHTML <-
    (if ok altResp then
       altText <- lift (Response_text altResp) ;;
       ret (extractElementOuterHTMLById altText (str "optimized-for-ai"))
     else ret []) ;;
  (match injectedHTML with
   | [] => console_log
             [LText (str "No #optimized-for-ai found in ALT; continuing without injection.")]
   | _ => ret tt
   end) ;;
  ret injectedHTML.

(** Lines 158 to 185: the page of the primary origin, after one redirect. *)
Definition fetchOrigin (u : URL) (request : Request) : M Response :=
  let currentWebserverOrigin := origin u in
  p <- call (fetchWithHost currentWebserverOrigin u request true false true) ;;
  origResp <- await p ;;
  if (300 <=? status origResp) && (status origResp <? 400) then
    let loc := Headers_get (resp_headers origResp) (str "location") in
    if truthy loc then
      console_log [LText (str "Current webserver redirect ->"); LText (or_empty loc)] ;;
      canonURL <- new_URL_base (or_empty loc) currentWebserverOrigin ;;
      let isSameOrigin := text_eqb (origin canonURL) (origin u) in
      p2 <- call (fetchWithHost (origin canonURL) canonURL request true false isSameOrigin) ;;
      await p2
    else ret origResp
  else ret origResp.

(** Lines 187 to 207: injection, or the request as it came. *)
Definition respond (request : Request) (injectedHTML : text) (origResp : Response)
  : M (Promise Response) :=
  if negb (Nat.eqb (length injectedHTML) 0) && isHTMLResponse origResp then
    console_log [LText (str "Injecting AI snippet")] ;;
    originalHTML <- lift (Response_text origResp) ;;
    let transformedHTML := injectHTML originalHTML injectedHTML in
    created <- lift (Response_new (TextBody transformedHTML) true (status origResp)
                       (statusText origResp) (resp_headers origResp)) ;;
    final <- lift (finalizeResponse created true true) ;;
    ret (Resolved final)
  else
    console_log
      [LText (str "AI visitor but no injection/fallback -> serving original via fetch(request)")] ;;
    fetch_call request.

(** Lines 144 to 207: the body of the [try]. *)
Definition tryBlock (u : URL) (request : Request) : M (Promise Response) :=
  injectedHTML <- fetchFragment u request ;;
  origResp <- fetchOrigin u request ;;
  respond request injectedHTML origResp.

(** Lines 143 to 211. *)
Definition agentPath (u : URL) (request : Request) : M (Promise Response) :=
  try_catch (tryBlock u request)
    (fun e =>
       console_error [LText (str "AI path error; falling back to normal fetch:"); LError e] ;;
       fetch_call request).

Definition organization_missing : bool :=
  (Nat.eqb (length ORGANIZATION_ID) 0) || text_eqb (trim ORGANIZATION_ID) [].

(** The default export. *)
Definition handler (request : Request) (context : Context)
  : list Event * Promise Response :=
  async (
    let u := url request in
    let ua := or_empty (Headers_get (headers request) (str "user-agent")) in
    let qsAgent :=
      option_map toLowerCase (searchParams_get (searchParams u) (str "user-agent")) in
    if is_text (Headers_get (headers request) BYPASS_EDGE_FUNCTION_HEADER) (str "true")
    then fetch_call request
    else if organization_missing then
      console_error
        [LText (str "ERROR: ORGANIZATION_ID environment variable is not set. "
                  ++ str "Please set it in Netlify Dashboard -> Site settings -> Environment variables")] ;;
      fetch_call request
    else if endsWith (pathname u) (str ".txt") || endsWith (pathname u) (str ".xml")
    then fetch_call request
    else
      let isChatGPT := isChatGPT ua qsAgent in
      let isGPTBot := isGPTBot ua in
      let isGoogleExtended := isGoogleExtended ua in
      let isBingPreview := isBingPreview ua in
      let isPerplexity := isPerplexity ua in
      let isClaudeUser := isClaudeUser ua in
      let isClaudeWeb := isClaudeWeb ua in
      let isClaudeBot := isClaudeBot ua in
      let isAIVisitor :=
        isChatGPT || isGPTBot || isGoogleExtended || isBingPreview
        || isPerplexity || isClaudeUser || isClaudeWeb || isClaudeBot in
      let currentWebserverOrigin := origin u in
      let requestId := randomUUID in
      let clientIp :=
        if truthy (ip context) then or_empty (ip context)
        else
          let xff := Headers_get (headers request) (str "x-forwarded-for") in
          if truthy xff then or_empty xff else str "unknown" in
      let country :=
        if truthy (geo_country_code context) then or_empty (geo_country_code context)
        else str "unknown" in
      console_log [LText (str "ORGANIZATION_ID:");
                   LText (match ORGANIZATION_ID with [] => str "NOT SET" | _ => ORGANIZATION_ID end)] ;;
      console_log [LText (str "User-Agent:"); LText ua] ;;
      console_log [LText (str "Current webserver origin:"); LText currentWebserverOrigin] ;;
      (if isAIVisitor then
         let botType :=
           determineBotType isChatGPT isGPTBot isGoogleExtended isBingPreview
             isPerplexity isClaudeUser isClaudeWeb isClaudeBot in
         console_log [LText botType] ;;
         emitTelemetry u botType clientIp country
       else ret tt) ;;
      if negb isAIVisitor then
        console_log [LText (str "Non-AI -> passthrough"); LText (pathname u ++ search u)] ;;
        fetch_call request
      else agentPath u request).

End Handler.


(** * Specification-level definitions *)

(** ** What the matcher accepts

    [matches icase r st st'] reads the matcher as a relation between the
    state before and the state after [r], without the order in which the
    matcher tries the alternatives. *)
Inductive matches (icase : bool) : regex -> mstate -> mstate -> Prop :=
| M_Eps st : matches icase Eps st st
| M_Chr c x s cs :
    char_eq icase x c = true -> matches icase (Chr c) (x :: s, cs) (s, cs)
| M_Cls neg items x s cs :
    cls_match icase neg items x = true ->
    matches icase (Cls neg items) (x :: s, cs) (s, cs)
| M_Seq r1 r2 st st1 st2 :
    matches icase r1 st st1 -> matches icase r2 st1 st2 ->
    matches icase (Seq r1 r2) st st2
| M_Grp n r st st1 :
    matches icase r st st1 ->
    matches icase (Grp n r) st
      (fst st1, (n, consumed (fst st) (fst st1)) :: snd st1)
| M_Bref_unset n st :
    capture n (snd st) = None -> matches icase (Bref n) st st
| M_Bref_set n g s cs :
    capture n cs = Some g -> ci_prefix icase g s = true ->
    matches icase (Bref n) (s, cs) (skipn (length g) s, cs)
| M_Star_stop g r st : matches icase (Star g r) st st
| M_Star_step g r st st1 st2 :
    matches icase r (fst st, clear (groups r) (snd st)) st1 ->
    length (fst st1) < length (fst st) ->
    matches icase (Star g r) st1 st2 ->
    matches icase (Star g r) st st2
| M_Opt_skip g r st : matches icase (Opt g r) st st
| M_Opt_take g r st st1 :
    matches icase r (fst st, clear (groups r) (snd st)) st1 ->
    length (fst st1) < length (fst st) ->
    matches icase (Opt g r) st st1.

(** The loop of the matcher on [Star], by name. *)
Definition star_loop (icase : bool) (r1 : regex) (greedy : bool) (k : cont)
  : nat -> mstate -> option mstate :=
  fix loop (fuel : nat) (st : mstate) {struct fuel} : option mstate :=
    match fuel with
    | 0 => k st
    | S fuel' =>
        let again st1 :=
          if length (fst st1) <? length (fst st) then loop fuel' st1
          else None in
        if greedy then
          match rmatch icase r1 (fst st, clear (groups r1) (snd st)) again with
          | Some res => Some res
          | None => k st
          end
        else
          match k st with
          | Some res => Some res
          | None => rmatch icase r1 (fst st, clear (groups r1) (snd st)) again
          end
    end.

(** Equality of two texts up to the case folding of the [i] flag. *)
Definition ci_eq (icase : bool) (g p : text) : Prop :=
  Forall2 (fun x c => char_eq icase x c = true) g p.

(** ** The shape of what the extractor returns *)













(** One escaped character of [escapeRegExp]. *)
Definition escape_char (c : ascii) : text :=
  if is_syntax_char c then ["\"%char; c] else [c].

(** ** The classifier of the specification

    The categories of section 3 and the algorithm of section 4.1: the
    ordered patterns first, the query override only when none matches. *)
Inductive BotCategory : Type :=
| ChatGPTUserAgent
| GPTCrawler
| GoogleExtended
| BingPreview
| PerplexityCrawler
| ClaudeUserAgent
| ClaudeWebAgent
| ClaudeCrawler
| NoCategory.

(** Case-insensitive search for a pattern text. *)
Definition ci_contains (s p : text) : bool :=
  includes (toLowerCase s) (toLowerCase p).

Definition spec_patterns : list (text * BotCategory) :=
  [ (str "ChatGPT-User/1.0", ChatGPTUserAgent);
    (str "GPTBot/1.0", GPTCrawler);
    (str "Google-Extended", GoogleExtended);
    (str "bingpreview", BingPreview);
    (str "PerplexityBot", PerplexityCrawler);
    (str "Claude-User", ClaudeUserAgent);
    (str "Claude-Web", ClaudeWebAgent);
    (str "ClaudeBot", ClaudeCrawler) ].

Fixpoint first_match (ua : text) (ps : list (text * BotCategory)) : BotCategory :=
  match ps with
  | [] => NoCategory
  | (p, c) :: ps' => if ci_contains ua p then c else first_match ua ps'
  end.

(** The override: the [user-agent] query parameter equal to [chatgpt] up to
    case. *)
Definition override_chatgpt (query_ua : option text) : bool :=
  match query_ua with
  | Some q => text_eqb (toLowerCase q) (str "chatgpt")
  | None => false
  end.

Definition spec_classify (ua : text) (query_ua : option text) : BotCategory :=
  match first_match ua spec_patterns with
  | NoCategory => if override_chatgpt query_ua then ChatGPTUserAgent else NoCategory
  | c => c
  end.

(** The name under which the source reports a category. *)
Definition category_name (c : BotCategory) : text :=
  match c with
  | ChatGPTUserAgent => str "ChatGPT-User"
  | GPTCrawler => str "GPTBot"
  | GoogleExtended => str "Google-Extended"
  | BingPreview => str "BingPreview"
  | PerplexityCrawler => str "PerplexityBot"
  | ClaudeUserAgent => str "Claude-User"
  | ClaudeWebAgent => str "Claude-Web"
  | ClaudeCrawler => str "ClaudeBot"
  | NoCategory => str "Unknown"
  end.

(** The classification of the source: the flags of lines 67 to 74 handed to
    [determineBotType]. *)
Definition classify (ua : text) (query_ua : option text) : text :=
  let qsAgent := option_map toLowerCase query_ua in
  determineBotType (isChatGPT ua qsAgent) (isGPTBot ua) (isGoogleExtended ua)
    (isBingPreview ua) (isPerplexity ua) (isClaudeUser ua) (isClaudeWeb ua)
    (isClaudeBot ua).

(** A fragment free of dollar signs. *)
Definition no_dollar (s : text) : bool :=
  forallb (fun c => negb (Ascii.eqb c "$"%char)) s.

(** ** The handler: what the properties speak about *)

(** The promise an [async] body settles its caller's promise with. *)
Definition settle {A : Type} (c : Completion (Promise A)) : Promise A :=
  match c with
  | Normal p => p
  | Throw e => Rejected e
  | Never => Pending
  end.

Definition request_ua (request : Request) : text :=
  or_empty (Headers_get (headers request) (str "user-agent")).

Definition request_qsAgent (request : Request) : option text :=
  option_map toLowerCase
    (searchParams_get (searchParams (url request)) (str "user-agent")).

(** The request carries the loop-prevention marker. *)
Definition marked (request : Request) : Prop :=
  Headers_get (headers request) BYPASS_EDGE_FUNCTION_HEADER = Some (str "true").

(** The request gets past the three early returns of lines 47 to 64. *)
Definition reaches_detection (ORGANIZATION_ID : text) (request : Request) : Prop :=
  is_text (Headers_get (headers request) BYPASS_EDGE_FUNCTION_HEADER) (str "true") = false
  /\ organization_missing ORGANIZATION_ID = false
  /\ endsWith (pathname (url request)) (str ".txt")
     || endsWith (pathname (url request)) (str ".xml") = false.

(** The request is detected as an AI visitor. *)
Definition classified (request : Request) : Prop :=
  isAIVisitor (request_ua request) (request_qsAgent request) = true.

(** The value of the content type the HTML test looks at. *)
Definition content_type (resp : Response) : text :=
  or_empty (Headers_get (resp_headers resp) (str "content-type")).

(** The request [fetchWithHost] builds from a parsed target. *)
Definition outbound (proxied : URL) (origin : text) (req : Request) (fixHost : bool)
  : Request :=
  let h1 := Headers_set (headers req) BYPASS_EDGE_FUNCTION_HEADER (str "true") in
  let h2 := if fixHost
            then Headers_set h1 (str "host") (replace_first origin (str "https://") [])
            else h1 in
  mkRequest proxied (method req) h2
    (if text_eqb (method req) (str "GET") || text_eqb (method req) (str "HEAD")
     then NoBody else body req)
    Manual.

Fixpoint headers_eqb (a b : Headers) : bool :=
  match a, b with
  | [], [] => true
  | (n, v) :: a', (m, w) :: b' => text_eqb n m && text_eqb v w && headers_eqb a' b'
  | _, _ => false
  end.

(** The requests with the method, the headers and the redirect mode of the
    telemetry POST. *)
Definition telemetry_shaped (r : Request) : bool :=
  match redirect r with
  | Manual => false
  | Follow => text_eqb (method r) (str "POST") && headers_eqb (headers r) telemetry_headers
  end.

(** The page of the finalizer's input can be rebuilt: its status lies in
    200..599 and a null body status comes without a body. *)
Definition constructible (resp : Response) : Prop :=
  200 <= status resp <= 599
  /\ (null_body_status (status resp) = true -> resp_body resp = NoBody).

(** The value [Vary] has after the finalizer, from the value before. *)
Definition vary_after (prev : option text) : text :=
  match prev with
  | Some (c :: p) => (c :: p) ++ str ", User-Agent"
  | _ => str "User-Agent"
  end.

(** What [await p] completes with. *)
Definition awaited {A : Type} (p : Promise A) : Completion A := snd (await p).

(** The values the telemetry event is built from (lines 88, 89 and 97). *)
Definition botType_of (request : Request) : text :=
  let ua := request_ua request in
  let qs := request_qsAgent request in
  determineBotType (isChatGPT ua qs) (isGPTBot ua) (isGoogleExtended ua)
    (isBingPreview ua) (isPerplexity ua) (isClaudeUser ua) (isClaudeWeb ua)
    (isClaudeBot ua).

Definition clientIp_of (request : Request) (context : Context) : text :=
  if truthy (ip context) then or_empty (ip context)
  else
    let xff := Headers_get (headers request) (str "x-forwarded-for") in
    if truthy xff then or_empty xff else str "unknown".

Definition country_of (context : Context) : text :=
  if truthy (geo_country_code context) then or_empty (geo_country_code context)
  else str "unknown".

(** The console lines of the source that the properties name. *)
Definition fallback_line : Event :=
  EvLog [LText (str "AI visitor but no injection/fallback -> serving original via fetch(request)")].

Definition catch_line (e : Error) : Event :=
  EvError [LText (str "AI path error; falling back to normal fetch:"); LError e].

Definition redirect_line (loc : text) : Event :=
  EvLog [LText (str "Current webserver redirect ->"); LText loc].

Definition telemetry_failure_line (e : Error) : Event :=
  EvError [LText (str "Failed to POST event:"); LError e].

(** The console lines and the telemetry that precede the agent path. *)
Definition prelude (ORGANIZATION_ID : text) (fetch : Request -> Promise Response)
    (parseURL : text -> option URL) (randomUUID : text)
    (request : Request) (context : Context) : list Event :=
  [ EvLog [LText (str "ORGANIZATION_ID:");
           LText (match ORGANIZATION_ID with [] => str "NOT SET" | _ => ORGANIZATION_ID end)];
    EvLog [LText (str "User-Agent:"); LText (request_ua request)];
    EvLog [LText (str "Current webserver origin:"); LText (origin (url request))];
    EvLog [LText (botType_of request)] ]
  ++ fst (emitTelemetry ORGANIZATION_ID fetch parseURL randomUUID (url request)
            (botType_of request) (clientIp_of request context) (country_of context)).

(** ** A small platform for the examples *)

Fixpoint take_until (c : ascii) (s : text) : text * text :=
  match s with
  | [] => ([], [])
  | x :: s' =>
      if Ascii.eqb x c then ([], s)
      else let (a, b) := take_until c s' in (x :: a, b)
  end.

(** A URL parser that is enough for the examples: [https://host/path?query]. *)
Definition ex_parseURL (s : text) : option URL :=
  if starts_with (str "https://") s then
    let (host, rest) := take_until "/"%char (skipn 8 s) in
    let (path, query) := take_until "?"%char rest in
    Some (mkURL s (str "https://" ++ host)
            (match path with [] => str "/" | _ => path end) query [])
  else None.

Definition ex_resolveURL (loc base : text) : option URL :=
  if starts_with (str "/") loc then ex_parseURL (base ++ loc) else ex_parseURL loc.

Definition ex_org : text := str "acme".
Definition ex_uuid : text := str "6f1c2b1e-0000-4000-8000-000000000001".
Definition ex_context : Context :=
  mkContext (Some (str "203.0.113.7")) (Some (str "US")).

Definition ex_url : URL :=
  mkURL (str "https://site.example/page") (str "https://site.example")
    (str "/page") [] [].

(** A visit of GPTBot, and the same request as the handler's own fetches
    send it on. *)
Definition ex_request : Request :=
  mkRequest ex_url (str "GET")
    [(str "User-Agent", str "Mozilla/5.0 (compatible; GPTBot/1.0)")] NoBody Follow.

Definition ex_marked_request : Request :=
  mkRequest ex_url (str "GET")
    [(str "User-Agent", str "Mozilla/5.0 (compatible; GPTBot/1.0)");
     (str "x-internal-fetch", str "true")] NoBody Follow.

Definition ex_browser_request : Request :=
  mkRequest ex_url (str "GET")
    [(str "User-Agent", str "Mozilla/5.0 (X11; Linux x86_64)")] NoBody Follow.

Definition ex_store_document : text :=
  str "<html><body><section id='optimized-for-ai'>ABC</section><p>other</p></body></html>".

Definition ex_page (contentType : text) : Response :=
  mkResponse 200 (str "OK") [(str "Content-Type", contentType)]
    (TextBody (str "<html><body><p>X</p></body></html>")).

(** A platform: the secondary store serves [ex_store_document], the marked
    requests are answered by [primary], every other request by a plain
    page. *)
Definition ex_platform (primary : Request -> Promise Response) (r : Request)
  : Promise Response :=
  if starts_with (str "https://salespeak-public-serving.s3.amazonaws.com/") (href (url r))
  then Resolved (mkResponse 200 (str "OK") [(str "Content-Type", str "text/html")]
                   (TextBody ex_store_document))
  else if is_text (Headers_get (headers r) BYPASS_EDGE_FUNCTION_HEADER) (str "true")
  then primary r
  else if telemetry_shaped r then Resolved (mkResponse 202 (str "Accepted") [] NoBody)
  else Resolved (ex_page (str "text/html")).

(** The same platform with another outcome of the telemetry POST. *)
Definition ex_platform_telemetry (outcome : Promise Response)
    (primary : Request -> Promise Response) (r : Request) : Promise Response :=
  if telemetry_shaped r then outcome else ex_platform primary r.

(** Primary origins: down, a page of a given content type, a redirect. *)
Definition ex_primary_down (r : Request) : Promise Response :=
  Rejected (OtherError (str "connection refused")).

Definition ex_primary_page (contentType : text) (r : Request) : Promise Response :=
  Resolved (ex_page contentType).

Definition ex_primary_redirect (location : text) (r : Request) : Promise Response :=
  if text_eqb (pathname (url r)) (str "/page")
  then Resolved (mkResponse 302 (str "Found") [(str "Location", location)] NoBody)
  else Resolved (ex_page (str "text/html")).

(** A store that is down, a page whose body cannot be read, and a page on a
    null body status. *)
Definition ex_platform_store_down (primary : Request -> Promise Response)
    (r : Request) : Promise Response :=
  if starts_with (str "https://salespeak-public-serving.s3.amazonaws.com/") (href (url r))
  then Rejected (OtherError (str "connection refused"))
  else ex_platform primary r.

Definition ex_primary_broken_body (r : Request) : Promise Response :=
  Resolved (mkResponse 200 (str "OK") [(str "Content-Type", str "text/html")]
              (BrokenBody (OtherError (str "connection reset")))).

Definition ex_primary_not_modified (r : Request) : Promise Response :=
  Resolved (mkResponse 304 (str "Not Modified")
              [(str "Content-Type", str "text/html")] NoBody).

(** A primary origin whose page has no content type. *)
Definition ex_primary_untyped (r : Request) : Promise Response :=
  Resolved (mkResponse 200 (str "OK") []
              (TextBody (str "<html><body><p>X</p></body></html>"))).

(** A page with a length and a [Vary] value, for the finalizer. *)
Definition ex_vary_response : Response :=
  mkResponse 200 (str "OK")
    [(str "Content-Length", str "34"); (str "Vary", str "Accept-Encoding")]
    (TextBody (str "<html><body><p>X</p></body></html>")).

(** ** Further names for the properties of the handler *)

(** The console lines of the early returns and of the injection. *)
Definition config_error_line : Event :=
  EvError
    [LText (str "ERROR: ORGANIZATION_ID environment variable is not set. "
              ++ str "Please set it in Netlify Dashboard -> Site settings -> Environment variables")].

Definition injecting_line : Event := EvLog [LText (str "Injecting AI snippet")].

(** The request of the telemetry POST, for a parsed endpoint. *)
Definition telemetry_request (ORGANIZATION_ID randomUUID : text) (endpoint : URL)
    (request : Request) (context : Context) : Request :=
  mkRequest endpoint (str "POST") telemetry_headers
    (TextBody (telemetry_payload ORGANIZATION_ID randomUUID (url request)
                 (botType_of request) (clientIp_of request context)
                 (country_of context)))
    Follow.

(** The names [determineBotType] gives to a detected visitor. *)
Definition bot_names : list text :=
  [ str "ChatGPT-User"; str "GPTBot"; str "Google-Extended"; str "BingPreview";
    str "PerplexityBot"; str "Claude-User"; str "Claude-Web"; str "ClaudeBot" ].

(** A text free of the syntax characters of a pattern. *)
Definition plain_text (s : text) : bool :=
  forallb (fun c => negb (is_syntax_char c)) s.

(** The headers the finalizer writes. *)
Definition finalizer_names : list text :=
  [ str "content-length"; str "Vary"; str "Cache-Control"; str "Pragma" ].

(** [name] is none of the names of [names], up to case. *)
Definition other_name (names : list text) (name : text) : bool :=
  forallb (fun n => negb (name_eqb n name)) names.
(** * Properties *)

(** ** Text and headers *)

Lemma text_eqb_eq (a b : text) : text_eqb a b = true <-> a = b.
Proof.
  revert b; induction a as [|x a IH]; intros [|y b]; simpl; split; intro H;
    try reflexivity; try discriminate.
  - apply andb_true_iff in H as [Hx Hab].
    apply Ascii.eqb_eq in Hx. apply IH in Hab. congruence.
  - injection H as -> ->. rewrite Ascii.eqb_refl. simpl. now apply IH.
Qed.

Lemma text_eqb_refl (a : text) : text_eqb a a = true.
Proof. now apply text_eqb_eq. Qed.

Lemma text_eqb_neq (a b : text) : text_eqb a b = false <-> a <> b.
Proof.
  split; intro H.
  - intro E. apply text_eqb_eq in E. congruence.
  - destruct (text_eqb a b) eqn:E; [|reflexivity].
    apply text_eqb_eq in E. contradiction.
Qed.

Lemma starts_with_spec (p s : text) :
  starts_with p s = true <-> exists t, s = p ++ t.
Proof.
  revert s; induction p as [|x p IH]; intros s; simpl.
  - split; [intros _; now exists s | reflexivity].
  - destruct s as [|y s].
    + split; [discriminate | intros [t Ht]; discriminate].
    + rewrite andb_true_iff, Ascii.eqb_eq, IH. split.
      * intros [-> [t ->]]. now exists t.
      * intros [t Ht]. injection Ht as -> ->. split; [reflexivity | now exists t].
Qed.

(** [includes] is the search for an occurrence, case-sensitively. *)
Lemma includes_spec (s p : text) :
  includes s p = true <-> exists pre post, s = pre ++ p ++ post.
Proof.
  induction s as [|c s IH]; simpl.
  - rewrite orb_false_r, starts_with_spec. split.
    + intros [t Ht]. now exists [], t.
    + intros [pre [post H]]. destruct pre; [now exists post | discriminate].
  - rewrite orb_true_iff, starts_with_spec, IH. split.
    + intros [[t Ht] | [pre [post H]]].
      * now exists [], t.
      * exists (c :: pre), post. simpl. now rewrite H.
    + intros [[|x pre] [post H]].
      * left. now exists post.
      * right. injection H as _ H. now exists pre, post.
Qed.

Lemma name_eqb_eq (a b : text) :
  name_eqb a b = true <-> map byte_lower a = map byte_lower b.
Proof. apply text_eqb_eq. Qed.

Lemma name_eqb_refl (a : text) : name_eqb a a = true.
Proof. now apply name_eqb_eq. Qed.

Lemma name_eqb_trans_false (a b c : text) :
  name_eqb a b = true -> name_eqb b c = false -> name_eqb a c = false.
Proof.
  intros Hab Hbc. apply name_eqb_eq in Hab.
  unfold name_eqb in *. now rewrite Hab.
Qed.

Lemma header_values_delete_same (h : Headers) (n m : text) :
  name_eqb n m = true -> header_values (Headers_delete h n) m = [].
Proof.
  intros Hnm. unfold header_values, Headers_delete.
  induction h as [|[k v] h IH]; simpl; [reflexivity|].
  destruct (name_eqb k n) eqn:E; simpl; [exact IH|].
  assert (name_eqb k m = false) as ->; [|exact IH].
  apply name_eqb_eq in Hnm. unfold name_eqb in *. now rewrite <- Hnm.
Qed.

Lemma header_values_delete_other (h : Headers) (n m : text) :
  name_eqb n m = false ->
  header_values (Headers_delete h n) m = header_values h m.
Proof.
  intros Hnm. unfold header_values, Headers_delete.
  induction h as [|[k v] h IH]; simpl; [reflexivity|].
  destruct (name_eqb k n) eqn:E; simpl.
  - rewrite (name_eqb_trans_false _ _ _ E Hnm). exact IH.
  - destruct (name_eqb k m); simpl; now rewrite IH.
Qed.

Lemma header_values_set_same (h : Headers) (n m v : text) :
  name_eqb n m = true -> header_values (Headers_set h n v) m = [v].
Proof.
  intros Hnm. induction h as [|[k w] h IH]; simpl.
  - unfold header_values. simpl. now rewrite Hnm.
  - destruct (name_eqb k n) eqn:E.
    + unfold header_values. simpl.
      assert (name_eqb k m = true) as ->.
      { apply name_eqb_eq in E, Hnm. apply name_eqb_eq. congruence. }
      simpl. f_equal. now apply header_values_delete_same.
    + unfold header_values in *. simpl.
      assert (name_eqb k m = false) as ->; [|exact IH].
      apply name_eqb_eq in Hnm. unfold name_eqb in *. now rewrite <- Hnm.
Qed.

Lemma header_values_set_other (h : Headers) (n m v : text) :
  name_eqb n m = false ->
  header_values (Headers_set h n v) m = header_values h m.
Proof.
  intros Hnm. induction h as [|[k w] h IH]; simpl.
  - unfold header_values. simpl. now rewrite Hnm.
  - destruct (name_eqb k n) eqn:E.
    + unfold header_values at 1 2. simpl.
      rewrite (name_eqb_trans_false _ _ _ E Hnm).
      now apply header_values_delete_other.
    + unfold header_values in *. simpl.
      destruct (name_eqb k m); simpl; now rewrite IH.
Qed.

Lemma Headers_get_set_same (h : Headers) (n m v : text) :
  name_eqb n m = true -> Headers_get (Headers_set h n v) m = Some v.
Proof.
  intros H. unfold Headers_get. now rewrite header_values_set_same.
Qed.

Lemma Headers_get_set_other (h : Headers) (n m v : text) :
  name_eqb n m = false -> Headers_get (Headers_set h n v) m = Headers_get h m.
Proof.
  intros H. unfold Headers_get. now rewrite header_values_set_other.
Qed.

Lemma Headers_get_delete_same (h : Headers) (n m : text) :
  name_eqb n m = true -> Headers_get (Headers_delete h n) m = None.
Proof.
  intros H. unfold Headers_get. now rewrite header_values_delete_same.
Qed.

Lemma Headers_get_delete_other (h : Headers) (n m : text) :
  name_eqb n m = false -> Headers_get (Headers_delete h n) m = Headers_get h m.
Proof.
  intros H. unfold Headers_get. now rewrite header_values_delete_other.
Qed.

(** ** The matcher and its declarative reading *)

Lemma if_ltb_true {A : Type} (a b : nat) (x y : A) :
  a < b -> (if a <? b then x else y) = x.
Proof. intros H. apply Nat.ltb_lt in H. now rewrite H. Qed.

Section MatcherTheory.

Variable icase : bool.

Lemma rmatch_Star (g : bool) (r1 : regex) (st : mstate) (k : cont) :
  rmatch icase (Star g r1) st k
  = star_loop icase r1 g k (S (length (fst st))) st.
Proof. reflexivity. Qed.

Lemma star_loop_sound (r1 : regex) (g : bool) (k : cont) :
  (forall st k res, rmatch icase r1 st k = Some res ->
     exists st', matches icase r1 st st' /\ k st' = Some res) ->
  forall fuel st res,
    star_loop icase r1 g k fuel st = Some res ->
    exists st', matches icase (Star g r1) st st' /\ k st' = Some res.
Proof.
  intros IH1. induction fuel as [|fuel IHf]; intros st res H; simpl in H.
  - exists st. split; [constructor | exact H].
  - assert (Hiter : forall res',
      rmatch icase r1 (fst st, clear (groups r1) (snd st))
        (fun st1 => if length (fst st1) <? length (fst st)
                    then star_loop icase r1 g k fuel st1 else None) = Some res' ->
      exists st', matches icase (Star g r1) st st' /\ k st' = Some res').
    { intros res' Hr. apply IH1 in Hr as [st1 [Hm Hk]].
      destruct (length (fst st1) <? length (fst st)) eqn:Hlt; [|discriminate].
      apply Nat.ltb_lt in Hlt. apply IHf in Hk as [st' [Hs Hk]].
      exists st'. split; [|exact Hk]. eapply M_Star_step; eassumption. }
    destruct g.
    + destruct (rmatch icase r1 _ _) eqn:E.
      * injection H as <-. now apply Hiter.
      * exists st. split; [constructor | exact H].
    + destruct (k st) eqn:E.
      * injection H as <-. exists st. split; [constructor | exact E].
      * now apply Hiter.
Qed.

Theorem rmatch_sound (r : regex) :
  forall st k res, rmatch icase r st k = Some res ->
    exists st', matches icase r st st' /\ k st' = Some res.
Proof.
  induction r as [|c|neg items|r1 IH1 r2 IH2|n r1 IH1|n|g r1 IH1|g r1 IH1];
    intros [s cs] k res H.
  - exists (s, cs). split; [constructor | exact H].
  - simpl in H. destruct s as [|x s]; [discriminate|].
    destruct (char_eq icase x c) eqn:E; [|discriminate].
    exists (s, cs). split; [now constructor | exact H].
  - simpl in H. destruct s as [|x s]; [discriminate|].
    destruct (cls_match icase neg items x) eqn:E; [|discriminate].
    exists (s, cs). split; [now constructor | exact H].
  - simpl in H. apply IH1 in H as [st1 [H1 H]]. apply IH2 in H as [st2 [H2 H]].
    exists st2. split; [econstructor; eassumption | exact H].
  - simpl in H. apply IH1 in H as [st1 [H1 H]].
    eexists. split; [apply M_Grp; exact H1 | exact H].
  - simpl in H. destruct (capture n cs) as [g|] eqn:E.
    + destruct (ci_prefix icase g s) eqn:P; [|discriminate].
      eexists. split; [eapply M_Bref_set; eassumption | exact H].
    + exists (s, cs). split; [now apply M_Bref_unset | exact H].
  - rewrite rmatch_Star in H. eapply star_loop_sound; eassumption.
  - simpl in H.
    assert (Hiter : forall res',
      rmatch icase r1 (s, clear (groups r1) cs)
        (fun st1 => if length (fst st1) <? length s then k st1 else None) = Some res' ->
      exists st', matches icase (Opt g r1) (s, cs) st' /\ k st' = Some res').
    { intros res' Hr. apply IH1 in Hr as [st1 [Hm Hk]].
      destruct (length (fst st1) <? length s) eqn:Hlt; [|discriminate].
      apply Nat.ltb_lt in Hlt.
      exists st1. split; [|exact Hk]. now apply M_Opt_take. }
    destruct g.
    + destruct (rmatch icase r1 _ _) eqn:E.
      * injection H as <-. now apply Hiter.
      * exists (s, cs). split; [constructor | exact H].
    + destruct (k (s, cs)) eqn:E.
      * injection H as <-. exists (s, cs). split; [constructor | exact E].
      * now apply Hiter.
Qed.

Lemma star_loop_complete (r1 : regex) (g : bool) (k : cont) :
  (forall st k, rmatch icase r1 st k = None ->
     forall st', matches icase r1 st st' -> k st' = None) ->
  forall fuel st,
    length (fst st) < fuel ->
    star_loop icase r1 g k fuel st = None ->
    forall st', matches icase (Star g r1) st st' -> k st' = None.
Proof.
  intros IH1. induction fuel as [|fuel IHf]; intros st Hfuel H st' Hm.
  - lia.
  - simpl in H.
    assert (k st = None /\
      rmatch icase r1 (fst st, clear (groups r1) (snd st))
        (fun st1 => if length (fst st1) <? length (fst st)
                    then star_loop icase r1 g k fuel st1 else None) = None)
      as [Hk Hr].
    { destruct g.
      - destruct (rmatch icase r1 _ _) eqn:E; [discriminate|]. now split.
      - destruct (k st) eqn:E; [discriminate|]. now split. }
    inversion Hm; subst.
    + exact Hk.
    + match goal with
      | Hstep : matches icase r1 _ ?st1, Hlt : length (fst ?st1) < _ |- _ =>
          pose proof (IH1 _ _ Hr _ Hstep) as Hagain; cbv beta in Hagain;
          rewrite if_ltb_true in Hagain by exact Hlt;
          eapply (IHf st1); [lia | exact Hagain | eassumption]
      end.
Qed.

Theorem rmatch_complete (r : regex) :
  forall st k, rmatch icase r st k = None ->
    forall st', matches icase r st st' -> k st' = None.
Proof.
  induction r as [|c|neg items|r1 IH1 r2 IH2|n r1 IH1|n|g r1 IH1|g r1 IH1];
    intros st k H st' Hm.
  - inversion Hm; subst. exact H.
  - inversion Hm; subst. simpl in H.
    match goal with E : char_eq _ _ _ = true |- _ => rewrite E in H end. exact H.
  - inversion Hm; subst. simpl in H.
    match goal with E : cls_match _ _ _ _ = true |- _ => rewrite E in H end. exact H.
  - inversion Hm; subst. simpl in H.
    match goal with
    | A : matches icase r1 _ ?st1, B : matches icase r2 ?st1 _ |- _ =>
        pose proof (IH1 _ _ H _ A) as H1; simpl in H1;
        exact (IH2 _ _ H1 _ B)
    end.
  - inversion Hm; subst. simpl in H.
    match goal with
    | A : matches icase r1 _ _ |- _ => exact (IH1 _ _ H _ A)
    end.
  - inversion Hm; subst; simpl in H.
    + match goal with E : capture _ _ = None |- _ => rewrite E in H end. exact H.
    + simpl in H.
      match goal with
      | E : capture _ _ = Some _, P : ci_prefix _ _ _ = true |- _ =>
          rewrite E, P in H
      end. exact H.
  - rewrite rmatch_Star in H.
    eapply star_loop_complete; [exact IH1 | | exact H | exact Hm].
    lia.
  - simpl in H.
    assert (k st = None /\
      rmatch icase r1 (fst st, clear (groups r1) (snd st))
        (fun st1 => if length (fst st1) <? length (fst st) then k st1 else None)
      = None) as [Hk Hr].
    { destruct g.
      - destruct (rmatch icase r1 _ _) eqn:E; [discriminate|]. now split.
      - destruct (k st) eqn:E; [discriminate|]. now split. }
    inversion Hm; subst.
    + exact Hk.
    + match goal with
      | Hstep : matches icase r1 _ ?st1, Hlt : length (fst ?st1) < _ |- _ =>
          pose proof (IH1 _ _ Hr _ Hstep) as Hagain; cbv beta in Hagain;
          rewrite if_ltb_true in Hagain by exact Hlt;
          exact Hagain
      end.
Qed.

Lemma ci_prefix_spec (g s : text) :
  ci_prefix icase g s = true <->
  exists g', ci_eq icase g' g /\ s = g' ++ skipn (length g) s.
Proof.
  revert s; induction g as [|c g IH]; intros s; simpl.
  - split; [intros _; exists []; split; [constructor | reflexivity] | reflexivity].
  - destruct s as [|x s].
    + split; [discriminate|]. intros [g' [Hg' Hs]].
      inversion Hg'; subst. discriminate.
    + rewrite andb_true_iff, IH. split.
      * intros [Hx [g' [Hg' Hs]]]. exists (x :: g'). split.
        -- now constructor.
        -- simpl. now rewrite <- Hs.
      * intros [g' [Hg' Hs]]. inversion Hg'; subst.
        simpl in Hs. injection Hs as <- Hs. split; [assumption|].
        eexists; split; eassumption.
Qed.


(** The matcher only moves forward in the text. *)
Lemma matches_suffix (r : regex) (st st' : mstate) :
  matches icase r st st' -> exists c, fst st = c ++ fst st'.
Proof.
  induction 1; simpl in *.
  - now exists [].
  - now exists [x].
  - now exists [x].
  - destruct IHmatches1 as [c1 Hc1], IHmatches2 as [c2 Hc2].
    exists (c1 ++ c2). now rewrite <- app_assoc, <- Hc2.
  - exact IHmatches.
  - now exists [].
  - apply ci_prefix_spec in H0 as [g' [_ Hs]]. now exists g'.
  - now exists [].
  - destruct IHmatches1 as [c1 Hc1], IHmatches2 as [c2 Hc2].
    exists (c1 ++ c2). now rewrite <- app_assoc, <- Hc2.
  - now exists [].
  - exact IHmatches.
Qed.

Lemma consumed_app (c s : text) : consumed (c ++ s) s = c.
Proof.
  unfold consumed. rewrite length_app.
  replace (length c + length s - length s) with (length c) by lia.
  rewrite firstn_app, firstn_all, Nat.sub_diag. simpl. apply app_nil_r.
Qed.


(** *** Reading each construct *)

Lemma matches_Eps_iff (st st' : mstate) :
  matches icase Eps st st' <-> st' = st.
Proof. split; [inversion 1; reflexivity | intros ->; constructor]. Qed.

Lemma matches_Chr_iff (c : ascii) (s : text) (cs : captures) (st' : mstate) :
  matches icase (Chr c) (s, cs) st' <->
  exists x, char_eq icase x c = true /\ s = x :: fst st' /\ snd st' = cs.
Proof.
  split.
  - inversion 1; subst. eexists; repeat split; eassumption.
  - intros [x [Hx [-> <-]]]. destruct st'. now constructor.
Qed.


Lemma matches_Seq_iff (r1 r2 : regex) (st st2 : mstate) :
  matches icase (Seq r1 r2) st st2 <->
  exists st1, matches icase r1 st st1 /\ matches icase r2 st1 st2.
Proof.
  split.
  - inversion 1; subst. eexists; split; eassumption.
  - intros [st1 [H1 H2]]. econstructor; eassumption.
Qed.




Lemma matches_lit_iff (p s : text) (cs : captures) (st' : mstate) :
  matches icase (lit p) (s, cs) st' <->
  exists g, ci_eq icase g p /\ s = g ++ fst st' /\ snd st' = cs.
Proof.
  revert s; induction p as [|c p IH]; intros s; simpl.
  - rewrite matches_Eps_iff. split.
    + intros ->. exists []. repeat split. constructor.
    + intros [g [Hg [-> <-]]]. inversion Hg. now destruct st'.
  - rewrite matches_Seq_iff. split.
    + intros [[s1 cs1] [H1 H2]]. apply matches_Chr_iff in H1 as [x [Hx [-> E]]].
      simpl in E. subst cs1. apply IH in H2 as [g [Hg [-> Hcs]]].
      exists (x :: g). repeat split; [now constructor | assumption].
    + intros [g [Hg [-> Hcs]]]. inversion Hg as [|x c' g0 p' Hx Hg0]; subst.
      exists (g0 ++ fst st', snd st'). split.
      * apply matches_Chr_iff. exists x. now repeat split.
      * apply IH. exists g0. now repeat split.
Qed.


(** *** The search *)

Lemma exec_from_none (r : regex) (i : nat) (s : text) :
  exec_from icase r i s = None <->
  forall pre suf st', s = pre ++ suf -> ~ matches icase r (suf, []) st'.
Proof.
  revert i; induction s as [|c s IH]; intros i; simpl.
  - destruct (rmatch icase r ([], []) (fun st => Some st)) eqn:E.
    + split; [discriminate|]. intros H. exfalso.
      apply rmatch_sound in E as [st' [Hm _]]. exact (H [] [] st' eq_refl Hm).
    + split; [|reflexivity]. intros _ pre suf st' Hs Hm.
      destruct pre; [|discriminate]. simpl in Hs. subst suf.
      pose proof (@rmatch_complete _ _ _ E _ Hm). discriminate.
  - destruct (rmatch icase r (c :: s, []) (fun st => Some st)) eqn:E.
    + split; [discriminate|]. intros H. exfalso.
      apply rmatch_sound in E as [st' [Hm _]]. exact (H [] (c :: s) st' eq_refl Hm).
    + rewrite IH. split.
      * intros H pre suf st' Hs Hm. destruct pre as [|x pre]; simpl in Hs.
        -- subst suf. pose proof (@rmatch_complete _ _ _ E _ Hm). discriminate.
        -- injection Hs as _ Hs. exact (H pre suf st' Hs Hm).
      * intros H pre suf st' Hs Hm. apply (H (c :: pre) suf st'); [|assumption].
        simpl. now rewrite Hs.
Qed.

Lemma rmatch_here (r : regex) (s : text) (st' : mstate) :
  rmatch icase r (s, []) (fun st => Some st) = Some st' ->
  s = consumed s (fst st') ++ fst st' /\
  matches icase r (consumed s (fst st') ++ fst st', []) (fst st', snd st').
Proof.
  intros E. apply rmatch_sound in E as [st1 [Hm [= <-]]].
  destruct (matches_suffix Hm) as [k Hk]. simpl in Hk. subst s.
  rewrite consumed_app. split; [reflexivity|]. now destruct st1.
Qed.

Lemma exec_from_some (r : regex) (i : nat) (s : text) (m : match_result) :
  exec_from icase r i s = Some m ->
  exists pre,
    s = pre ++ m_text m ++ m_after m /\
    m_index m = i + length pre /\
    matches icase r (m_text m ++ m_after m, []) (m_after m, m_caps m) /\
    forall pre' suf' st', s = pre' ++ suf' -> length pre' < length pre ->
      ~ matches icase r (suf', []) st'.
Proof.
  revert i; induction s as [|c s IH]; intros i; simpl.
  - destruct (rmatch icase r ([], []) (fun st => Some st)) as [st|] eqn:E; [|discriminate].
    intros [= <-]. simpl. apply rmatch_here in E as [Hs Hm].
    exists []. simpl. repeat split; [exact Hs | lia | exact Hm |].
    intros pre' suf' st'' _ Hlt. simpl in Hlt. lia.
  - destruct (rmatch icase r (c :: s, []) (fun st => Some st)) as [st|] eqn:E.
    + intros [= <-]. simpl. apply rmatch_here in E as [Hs Hm].
      exists []. simpl. repeat split; [exact Hs | lia | exact Hm |].
      intros pre' suf' st'' _ Hlt. simpl in Hlt. lia.
    + intros H. apply IH in H as [pre [Hs [Hi [Hm Hleft]]]].
      exists (c :: pre). simpl. repeat split.
      * now rewrite <- Hs.
      * lia.
      * exact Hm.
      * intros pre' suf' st' Hs' Hlt Hm'. destruct pre' as [|x pre']; simpl in *.
        -- subst suf'. pose proof (@rmatch_complete _ _ _ E _ Hm'). discriminate.
        -- injection Hs' as _ Hs'. apply (Hleft pre' suf' st' Hs'); [lia | assumption].
Qed.

(** [test] on a literal pattern finds an occurrence up to case. *)
Lemma test_lit_iff (p s : text) :
  test icase (lit p) s = true <->
  exists pre g post, s = pre ++ g ++ post /\ ci_eq icase g p.
Proof.
  unfold test, exec. destruct (exec_from icase (lit p) 0 s) as [m|] eqn:E.
  - split; [intros _|reflexivity].
    apply exec_from_some in E as [pre [Hs [_ [Hm _]]]].
    apply matches_lit_iff in Hm as [g [Hg [Hs' _]]]. simpl in Hs'.
    apply app_inv_tail in Hs'. exists pre, g, (m_after m). split; congruence.
  - split; [discriminate|]. intros [pre [g [post [Hs Hg]]]]. exfalso.
    rewrite exec_from_none in E. apply (E pre (g ++ post) (post, []) Hs).
    apply matches_lit_iff. exists g. now repeat split.
Qed.

End MatcherTheory.

(** *** Characters and classes of the source's expressions *)

Ltac by_cases_on_char c :=
  destruct c as [[|] [|] [|] [|] [|] [|] [|] [|]]; vm_compute; reflexivity.







Lemma cls_escape (c : ascii) :
  cls_match false false (map CChar (str ".*+?^${}()|[]\")) c = is_syntax_char c.
Proof. by_cases_on_char c. Qed.






Lemma syntax_not_backslash (c : ascii) :
  is_syntax_char c = false -> Ascii.eqb c "\"%char = false.
Proof. destruct c as [[|] [|] [|] [|] [|] [|] [|] [|]]; vm_compute; congruence. Qed.

Lemma lower_upper (c : ascii) : to_lower (to_upper c) = to_lower c.
Proof. by_cases_on_char c. Qed.

Lemma upper_lower (c : ascii) : to_upper (to_lower c) = to_upper c.
Proof. by_cases_on_char c. Qed.

(** ** escapeRegExp *)

Lemma consumed_one (c : ascii) (s : text) : consumed (c :: s) s = [c].
Proof. exact (consumed_app [c] s). Qed.

Lemma replace_global_S (icase : bool) (fuel : nat) (r : regex)
    (repl before s : text) :
  replace_global icase (S fuel) r repl before s =
  let step :=
    match s with
    | [] => []
    | c :: s' => c :: replace_global icase fuel r repl (before ++ [c]) s'
    end in
  match rmatch icase r (s, []) (fun st => Some st) with
  | Some st =>
      match consumed s (fst st) with
      | [] => getSubstitution [] before s repl ++ step
      | mt =>
          getSubstitution mt before (fst st) repl
            ++ replace_global icase fuel r repl (before ++ mt) (fst st)
      end
  | None => step
  end.
Proof. reflexivity. Qed.

Lemma rmatch_ESCAPE_cons (c : ascii) (s : text) (k : cont) :
  rmatch false ESCAPE_RE (c :: s, []) k
  = if is_syntax_char c then k (s, []) else None.
Proof. unfold ESCAPE_RE. cbn [rmatch fst snd]. now rewrite cls_escape. Qed.

Lemma replace_global_escape (s : text) :
  forall fuel before, length s < fuel ->
    replace_global false fuel ESCAPE_RE (str "\$&") before s
    = flat_map escape_char s.
Proof.
  induction s as [|c s IH]; intros [|fuel] before Hlen; simpl in Hlen; try lia.
  - reflexivity.
  - rewrite replace_global_S, rmatch_ESCAPE_cons. cbv zeta.
    unfold escape_char at 1. cbn [flat_map].
    destruct (is_syntax_char c) eqn:E.
    + cbn [fst]. rewrite consumed_one. simpl getSubstitution.
      rewrite IH by lia. reflexivity.
    + rewrite IH by lia. reflexivity.
Qed.

(** Each syntax character gets a backslash, every other character is kept. *)
Lemma escapeRegExp_spec (s : text) : escapeRegExp s = flat_map escape_char s.
Proof. unfold escapeRegExp, replace_all. apply replace_global_escape. lia. Qed.

Lemma pattern_atoms_escaped (s : text) :
  pattern_atoms (flat_map escape_char s) = Some (lit s).
Proof.
  induction s as [|c s IH]; [reflexivity|].
  cbn [flat_map]. unfold escape_char at 1.
  destruct (is_syntax_char c) eqn:E.
  - cbn [app pattern_atoms]. rewrite Ascii.eqb_refl, E. simpl orb.
    cbv iota. now rewrite IH.
  - cbn [app pattern_atoms]. rewrite (syntax_not_backslash _ E), E.
    now rewrite IH.
Qed.

(** The escaped identifier is read back as the identifier itself, character
    by character: no character of it keeps a meaning in the expression. *)
Lemma literal_pattern_escaped (id : text) :
  literal_pattern (escapeRegExp id) = lit id.
Proof.
  unfold literal_pattern. now rewrite escapeRegExp_spec, pattern_atoms_escaped.
Qed.

(** ** Literal patterns and case-insensitive search *)

Lemma ci_eq_lower (g p : text) :
  ci_eq true g p <-> map to_lower g = map to_lower p.
Proof.
  split.
  - induction 1 as [|x c g p Hx _ IH]; [reflexivity|]. simpl. f_equal; [|exact IH].
    unfold char_eq, canon in Hx. apply Ascii.eqb_eq in Hx.
    rewrite <- (lower_upper x), <- (lower_upper c). now rewrite Hx.
  - revert p; induction g as [|x g IH]; intros [|c p] H; try discriminate.
    + constructor.
    + simpl in H. injection H as Hx Hg. constructor; [|now apply IH].
      unfold char_eq, canon. apply Ascii.eqb_eq.
      rewrite <- (upper_lower x), <- (upper_lower c). now rewrite Hx.
Qed.

Lemma test_lit_ci (p s : text) : test true (lit p) s = ci_contains s p.
Proof.
  apply eq_true_iff_eq. unfold ci_contains, toLowerCase.
  rewrite test_lit_iff, includes_spec. split.
  - intros [pre [g [post [-> Hg]]]]. apply ci_eq_lower in Hg.
    exists (map to_lower pre), (map to_lower post).
    now rewrite !map_app, Hg.
  - intros [pre' [post' H]].
    apply map_eq_app in H as [pre [s2 [-> [_ H]]]].
    apply map_eq_app in H as [g [post [-> [Hg _]]]].
    exists pre, g, post. split; [reflexivity | now apply ci_eq_lower].
Qed.

(** ** The classifier *)

Lemma isChatGPT_spec (ua : text) (q : option text) :
  isChatGPT ua (option_map toLowerCase q)
  = ci_contains ua (str "ChatGPT-User/1.0") || override_chatgpt q.
Proof.
  unfold isChatGPT. change CHATGPT_UA_RE with (lit (str "ChatGPT-User/1.0")).
  rewrite test_lit_ci. now destruct q.
Qed.

Lemma classify_formula (ua : text) (q : option text) :
  classify ua q
  = category_name
      (if override_chatgpt q then ChatGPTUserAgent else first_match ua spec_patterns).
Proof.
  unfold classify. rewrite isChatGPT_spec.
  unfold isGPTBot, isGoogleExtended, isBingPreview, isPerplexity, isClaudeUser,
    isClaudeWeb, isClaudeBot.
  change GPTBOT_UA_RE with (lit (str "GPTBot/1.0")).
  change GOOGLE_EXTENDED_RE with (lit (str "Google-Extended")).
  change BING_PREVIEW_RE with (lit (str "bingpreview")).
  change PERPLEXITY_UA_RE with (lit (str "PerplexityBot")).
  change CLAUDE_USER_RE with (lit (str "Claude-User")).
  change CLAUDE_WEB_RE with (lit (str "Claude-Web")).
  change CLAUDE_BOT_RE with (lit (str "ClaudeBot")).
  rewrite !test_lit_ci. unfold spec_patterns, first_match, determineBotType.
  destruct (override_chatgpt q); [now rewrite orb_true_r|]. rewrite orb_false_r.
  repeat match goal with
         | |- context [ci_contains ua ?p] => destruct (ci_contains ua p)
         end; reflexivity.
Qed.

Lemma isAIVisitor_formula (ua : text) (q : option text) :
  isAIVisitor ua (option_map toLowerCase q) = false <->
  override_chatgpt q = false /\ first_match ua spec_patterns = NoCategory.
Proof.
  unfold isAIVisitor. rewrite isChatGPT_spec.
  unfold isGPTBot, isGoogleExtended, isBingPreview, isPerplexity, isClaudeUser,
    isClaudeWeb, isClaudeBot.
  change GPTBOT_UA_RE with (lit (str "GPTBot/1.0")).
  change GOOGLE_EXTENDED_RE with (lit (str "Google-Extended")).
  change BING_PREVIEW_RE with (lit (str "bingpreview")).
  change PERPLEXITY_UA_RE with (lit (str "PerplexityBot")).
  change CLAUDE_USER_RE with (lit (str "Claude-User")).
  change CLAUDE_WEB_RE with (lit (str "Claude-Web")).
  change CLAUDE_BOT_RE with (lit (str "ClaudeBot")).
  rewrite !test_lit_ci. unfold spec_patterns, first_match.
  destruct (override_chatgpt q);
  repeat match goal with
         | |- context [ci_contains ua ?p] => destruct (ci_contains ua p)
         end; simpl; split; try discriminate; try tauto;
  intros [? ?]; discriminate.
Qed.

(** ** injectHTML *)

Lemma getSubstitution_plain (m b a repl : text) :
  no_dollar repl = true -> getSubstitution m b a repl = repl.
Proof.
  induction repl as [|c t IH]; [reflexivity|]. simpl.
  intros H. apply andb_true_iff in H as [Hc Ht].
  apply negb_true_iff in Hc. rewrite Hc. now rewrite IH.
Qed.

Lemma firstn_length_app {A : Type} (a b : list A) : firstn (length a) (a ++ b) = a.
Proof.
  rewrite firstn_app, firstn_all, Nat.sub_diag. simpl. apply app_nil_r.
Qed.

Lemma injectHTML_cases (base frag : text) :
  (exists pre tag post,
     base = pre ++ tag ++ post /\
     ci_eq true tag (str "</body>") /\
     (forall pre' tag' post', base = pre' ++ tag' ++ post' ->
        ci_eq true tag' (str "</body>") -> length pre <= length pre') /\
     injectHTML base frag
     = pre ++ getSubstitution tag pre post (frag ++ str "</body>") ++ post)
  \/
  ((forall pre tag post, base = pre ++ tag ++ post ->
      ~ ci_eq true tag (str "</body>")) /\
   injectHTML base frag = base ++ frag).
Proof.
  unfold injectHTML, replace_regex, test.
  change bodyCloseRegex with (lit (str "</body>")).
  unfold exec. destruct (exec_from true (lit (str "</body>")) 0 base) as [m|] eqn:E.
  - left. apply exec_from_some in E as [pre [Hs [Hi [Hm Hleft]]]].
    apply matches_lit_iff in Hm as [g [Hg [Hs' _]]]. simpl in Hs'.
    apply app_inv_tail in Hs'. subst g.
    exists pre, (m_text m), (m_after m). repeat split; try assumption.
    + intros pre' tag' post' Hb Ht.
      destruct (le_lt_dec (length pre) (length pre')) as [Hle|Hlt]; [exact Hle|].
      exfalso. apply (Hleft pre' (tag' ++ post') (post', []) Hb Hlt).
      apply matches_lit_iff. exists tag'. now repeat split.
    + simpl in Hi. rewrite Hi. rewrite Hs at 1 2. now rewrite firstn_length_app.
  - right. split; [|reflexivity].
    rewrite exec_from_none in E. intros pre tag post Hb Ht.
    apply (E pre (tag ++ post) (post, []) Hb).
    apply matches_lit_iff. exists tag. now repeat split.
Qed.

















(** ** The effects *)

Lemma bind_normal {A B : Type} (m : M A) (f : A -> M B) (t : list Event) (a : A) :
  m = (t, Normal a) -> bind m f = (t ++ fst (f a), snd (f a)).
Proof. intros ->. unfold bind. now destruct (f a). Qed.

Lemma bind_throw {A B : Type} (m : M A) (f : A -> M B) (t : list Event) (e : Error) :
  m = (t, Throw e) -> bind m f = (t, Throw e).
Proof. now intros ->. Qed.

Lemma bind_never {A B : Type} (m : M A) (f : A -> M B) (t : list Event) :
  m = (t, Never) -> bind m f = (t, Never).
Proof. now intros ->. Qed.


Lemma async_settle {A : Type} (body : M (Promise A)) :
  async body = (fst body, settle (snd body)).
Proof. now destruct body as [t [p|e|]]. Qed.

Lemma fetches_app (t1 t2 : list Event) :
  fetches (t1 ++ t2) = fetches t1 ++ fetches t2.
Proof. unfold fetches. apply flat_map_app. Qed.

Section HandlerTheory.

Variable ORGANIZATION_ID : text.
Variable fetch : Request -> Promise Response.
Variable parseURL : text -> option URL.
Variable resolveURL : text -> text -> option URL.
Variable randomUUID : text.

Abbreviation handler' := (handler ORGANIZATION_ID fetch parseURL resolveURL randomUUID).
Abbreviation agentPath' := (agentPath ORGANIZATION_ID fetch parseURL resolveURL).
Abbreviation tryBlock' := (tryBlock ORGANIZATION_ID fetch parseURL resolveURL).
Abbreviation fetchFragment' := (fetchFragment ORGANIZATION_ID fetch parseURL).
Abbreviation fetchOrigin' := (fetchOrigin fetch parseURL resolveURL).
Abbreviation fetchWithHost' := (fetchWithHost fetch parseURL).
Abbreviation respond' := (respond fetch).
Abbreviation emitTelemetry' := (emitTelemetry ORGANIZATION_ID fetch parseURL randomUUID).
Abbreviation prelude' := (prelude ORGANIZATION_ID fetch parseURL randomUUID).

Lemma emitTelemetry_normal (u : URL) (b c d : text) :
  snd (emitTelemetry' u b c d) = Normal tt.
Proof.
  unfold emitTelemetry, fetch_text.
  destruct (parseURL EXTERNAL_API_URL); reflexivity.
Qed.

Lemma emitTelemetry_trace (u : URL) (b c d : text) :
  fst (emitTelemetry' u b c d) =
  match parseURL EXTERNAL_API_URL with
  | Some tu =>
      let r := mkRequest tu (str "POST") telemetry_headers
                 (TextBody (telemetry_payload ORGANIZATION_ID randomUUID u b c d)) Follow in
      EvFetch r ::
        match fetch r with
        | Rejected e => [telemetry_failure_line e]
        | _ => []
        end
  | None => [telemetry_failure_line TypeError]
  end.
Proof.
  unfold emitTelemetry, fetch_text.
  destruct (parseURL EXTERNAL_API_URL); [|reflexivity].
  unfold fetch_call, bind, detached_catch. cbn [fst snd app].
  now destruct (fetch _).
Qed.

(** Past the early returns, the handler writes its console lines, emits the
    telemetry if the visitor is detected, and goes on. *)
Lemma handler_classified (request : Request) (context : Context) :
  reaches_detection ORGANIZATION_ID request -> classified request ->
  handler' request context =
  (prelude' request context ++ fst (agentPath' (url request) request),
   settle (snd (agentPath' (url request) request))).
Proof.
  intros (Hm & Ho & Hs) Hc. unfold handler.
  rewrite Hm, Ho, Hs. fold (request_ua request) (request_qsAgent request).
  rewrite async_settle.
  change (isChatGPT (request_ua request) (request_qsAgent request)
          || isGPTBot (request_ua request)
          || isGoogleExtended (request_ua request)
          || isBingPreview (request_ua request)
          || isPerplexity (request_ua request)
          || isClaudeUser (request_ua request)
          || isClaudeWeb (request_ua request)
          || isClaudeBot (request_ua request))
    with (isAIVisitor (request_ua request) (request_qsAgent request)).
  unfold classified in Hc. rewrite Hc. cbn [negb].
  fold (botType_of request) (clientIp_of request context) (country_of context).
  unfold prelude.
  pose proof (emitTelemetry_normal (url request) (botType_of request)
                (clientIp_of request context) (country_of context)) as Hn.
  destruct (emitTelemetry' (url request) (botType_of request)
              (clientIp_of request context) (country_of context)) as [tt0 ct].
  simpl in Hn. subst ct.
  destruct (agentPath' (url request) request) as [ta ca].
  unfold bind, console_log. cbn [fst snd]. reflexivity.
Qed.

Lemma handler_not_classified (request : Request) (context : Context) :
  reaches_detection ORGANIZATION_ID request ->
  isAIVisitor (request_ua request) (request_qsAgent request) = false ->
  snd (handler' request context) = fetch request
  /\ fetches (fst (handler' request context)) = [request].
Proof.
  intros (Hm & Ho & Hs) Hc. unfold handler.
  rewrite Hm, Ho, Hs. fold (request_ua request) (request_qsAgent request).
  change (isChatGPT (request_ua request) (request_qsAgent request)
          || isGPTBot (request_ua request)
          || isGoogleExtended (request_ua request)
          || isBingPreview (request_ua request)
          || isPerplexity (request_ua request)
          || isClaudeUser (request_ua request)
          || isClaudeWeb (request_ua request)
          || isClaudeBot (request_ua request))
    with (isAIVisitor (request_ua request) (request_qsAgent request)).
  rewrite Hc. split; reflexivity.
Qed.

(** *** fetchWithHost *)

Lemma fetchWithHost_parsed (o : text) (u : URL) (req : Request)
    (fixHost logURL bypass : bool) (proxied : URL) :
  parseURL (o ++ pathname u ++ search u) = Some proxied ->
  fetchWithHost' o u req fixHost logURL bypass =
  ((if logURL then [EvLog [LText (str "Fetching ->"); LText (href proxied)]] else [])
     ++ [EvFetch (outbound proxied o req fixHost)],
   fetch (outbound proxied o req fixHost)).
Proof.
  intros Hp. unfold fetchWithHost, new_URL. rewrite Hp.
  destruct logURL, fixHost; reflexivity.
Qed.

Lemma fetchWithHost_unparsed (o : text) (u : URL) (req : Request)
    (fixHost logURL bypass : bool) :
  parseURL (o ++ pathname u ++ search u) = None ->
  fetchWithHost' o u req fixHost logURL bypass = ([], Rejected TypeError).
Proof.
  intros Hp. unfold fetchWithHost, new_URL. now rewrite Hp.
Qed.

Lemma outbound_marked (proxied : URL) (o : text) (req : Request) (fixHost : bool) :
  marked (outbound proxied o req fixHost).
Proof.
  unfold marked, outbound. cbn [headers]. destruct fixHost.
  - rewrite Headers_get_set_other by reflexivity.
    apply Headers_get_set_same. reflexivity.
  - apply Headers_get_set_same. reflexivity.
Qed.

(** *** The last step and the catch *)

Lemma respond_fallback (request : Request) (inj : text) (orig : Response) :
  inj = [] \/ isHTMLResponse orig = false ->
  respond' request inj orig = ([fallback_line; EvFetch request], Normal (fetch request)).
Proof.
  unfold respond. intros [-> | ->]; [reflexivity|].
  now rewrite andb_false_r.
Qed.



Lemma agentPath_not_throw (u : URL) (request : Request) (t : list Event)
    (c : Completion (Promise Response)) :
  tryBlock' u request = (t, c) -> (forall e, c <> Throw e) ->
  agentPath' u request = (t, c).
Proof.
  unfold agentPath. intros -> H. destruct c as [p|e|]; try reflexivity.
  now destruct (H e).
Qed.



(** *** The phases of the try block *)

Lemma tryBlock_phases (u : URL) (request : Request) (t1 t2 : list Event)
    (inj : text) (orig : Response) :
  fetchFragment' u request = (t1, Normal inj) ->
  fetchOrigin' u request = (t2, Normal orig) ->
  tryBlock' u request =
  (t1 ++ t2 ++ fst (respond' request inj orig), snd (respond' request inj orig)).
Proof.
  intros H1 H2. unfold tryBlock.
  rewrite (bind_normal _ H1). cbn [fst snd].
  rewrite (bind_normal _ H2). cbn [fst snd]. reflexivity.
Qed.

Lemma isHTMLResponse_spec (resp : Response) :
  isHTMLResponse resp = true <->
  exists pre post, content_type resp = pre ++ str "text/html" ++ post.
Proof. unfold isHTMLResponse. apply includes_spec. Qed.

Lemma truthy_some (t : text) : t <> [] -> truthy (Some t) = true.
Proof. destruct t; [contradiction | reflexivity]. Qed.

Lemma fetchOrigin_redirect (u : URL) (request : Request) (p1 p2 canon : URL)
    (r1 : Response) (loc : text) :
  parseURL (origin u ++ pathname u ++ search u) = Some p1 ->
  fetch (outbound p1 (origin u) request true) = Resolved r1 ->
  300 <= status r1 < 400 ->
  Headers_get (resp_headers r1) (str "location") = Some loc ->
  loc <> [] ->
  resolveURL loc (origin u) = Some canon ->
  parseURL (origin canon ++ pathname canon ++ search canon) = Some p2 ->
  fetchOrigin' u request =
  ([EvFetch (outbound p1 (origin u) request true);
    redirect_line loc;
    EvFetch (outbound p2 (origin canon) request true)],
   awaited (fetch (outbound p2 (origin canon) request true))).
Proof.
  intros Hp1 Hf1 [Hlo Hhi] Hloc Hne Hres Hp2.
  unfold fetchOrigin, call.
  rewrite (fetchWithHost_parsed _ _ _ true false true Hp1). cbn [fst snd app].
  unfold bind at 1. cbn [app]. rewrite Hf1. unfold await at 1.
  unfold ret, bind at 1.
  apply Nat.leb_le in Hlo. apply Nat.ltb_lt in Hhi. rewrite Hlo, Hhi. cbn [andb].
  rewrite Hloc, (truthy_some Hne). cbn [or_empty].
  unfold new_URL_base. rewrite Hres.
  unfold console_log, ret. cbn [bind fst snd app].
  rewrite (fetchWithHost_parsed _ _ _ true false _ Hp2).
  unfold awaited. cbn [fst snd app].
  now destruct (fetch (outbound p2 (origin canon) request true)).
Qed.

(** Without a location to follow the first response is the result. *)
Lemma fetchOrigin_no_redirect (u : URL) (request : Request) (p1 : URL)
    (r1 : Response) :
  parseURL (origin u ++ pathname u ++ search u) = Some p1 ->
  fetch (outbound p1 (origin u) request true) = Resolved r1 ->
  (300 <=? status r1) && (status r1 <? 400)
    && truthy (Headers_get (resp_headers r1) (str "location")) = false ->
  fetchOrigin' u request =
  ([EvFetch (outbound p1 (origin u) request true)], Normal r1).
Proof.
  intros Hp1 Hf1 Hno.
  unfold fetchOrigin, call.
  rewrite (fetchWithHost_parsed _ _ _ true false true Hp1). cbn [fst snd app].
  unfold bind at 1. cbn [app]. rewrite Hf1. unfold await at 1.
  unfold ret, bind at 1.
  destruct ((300 <=? status r1) && (status r1 <? 400)); [|reflexivity].
  cbn [andb] in Hno. now rewrite Hno.
Qed.

End HandlerTheory.

(** *** Two platforms that differ on the telemetry POST only *)

Section TwoPlatforms.

Variable ORGANIZATION_ID : text.
Variables fetch1 fetch2 : Request -> Promise Response.
Variable parseURL : text -> option URL.
Variable resolveURL : text -> text -> option URL.
Variable randomUUID : text.

Hypothesis agree : forall r, telemetry_shaped r = false -> fetch1 r = fetch2 r.

Lemma fetchWithHost_agree (o : text) (u : URL) (req : Request)
    (fixHost logURL bypass : bool) :
  fetchWithHost fetch1 parseURL o u req fixHost logURL bypass
  = fetchWithHost fetch2 parseURL o u req fixHost logURL bypass.
Proof.
  destruct (parseURL (o ++ pathname u ++ search u)) as [p|] eqn:E.
  - rewrite (@fetchWithHost_parsed fetch1 _ _ _ req fixHost logURL bypass _ E),
      (@fetchWithHost_parsed fetch2 _ _ _ req fixHost logURL bypass _ E).
    f_equal. now apply agree.
  - now rewrite (@fetchWithHost_unparsed fetch1 _ _ _ req fixHost logURL bypass E),
      (@fetchWithHost_unparsed fetch2 _ _ _ req fixHost logURL bypass E).
Qed.

Lemma fetchFragment_agree (u : URL) (request : Request) :
  fetchFragment ORGANIZATION_ID fetch1 parseURL u request
  = fetchFragment ORGANIZATION_ID fetch2 parseURL u request.
Proof. unfold fetchFragment. now rewrite fetchWithHost_agree. Qed.

Lemma fetchOrigin_agree (u : URL) (request : Request) :
  fetchOrigin fetch1 parseURL resolveURL u request
  = fetchOrigin fetch2 parseURL resolveURL u request.
Proof.
  unfold fetchOrigin. rewrite fetchWithHost_agree.
  destruct (fetchWithHost fetch2 parseURL (origin u) u request true false true)
    as [t p].
  unfold call. cbn [fst snd bind].
  destruct p as [r|e|]; cbn [await ret throw bind]; try reflexivity.
  destruct ((300 <=? status r) && (status r <? 400)); [|reflexivity].
  destruct (truthy (Headers_get (resp_headers r) (str "location"))); [|reflexivity].
  unfold new_URL_base.
  destruct (resolveURL _ _) as [canon|]; [|reflexivity].
  cbn [console_log ret bind]. now rewrite fetchWithHost_agree.
Qed.

Lemma respond_agree (request : Request) (inj : text) (orig : Response) :
  fetch1 request = fetch2 request ->
  respond fetch1 request inj orig = respond fetch2 request inj orig.
Proof.
  intros H. unfold respond.
  destruct (negb (length inj =? 0) && isHTMLResponse orig); [reflexivity|].
  unfold fetch_call. now rewrite H.
Qed.

Lemma tryBlock_agree (u : URL) (request : Request) :
  fetch1 request = fetch2 request ->
  tryBlock ORGANIZATION_ID fetch1 parseURL resolveURL u request
  = tryBlock ORGANIZATION_ID fetch2 parseURL resolveURL u request.
Proof.
  intros H. unfold tryBlock. rewrite fetchFragment_agree.
  destruct (fetchFragment ORGANIZATION_ID fetch2 parseURL u request)
    as [t [inj|e|]]; cbn [bind]; try reflexivity.
  rewrite fetchOrigin_agree.
  destruct (fetchOrigin fetch2 parseURL resolveURL u request)
    as [t' [orig|e|]]; cbn [bind]; try reflexivity.
  now rewrite (respond_agree _ _ H).
Qed.

Lemma agentPath_agree (u : URL) (request : Request) :
  fetch1 request = fetch2 request ->
  agentPath ORGANIZATION_ID fetch1 parseURL resolveURL u request
  = agentPath ORGANIZATION_ID fetch2 parseURL resolveURL u request.
Proof.
  intros H. unfold agentPath. rewrite (tryBlock_agree _ H).
  destruct (tryBlock ORGANIZATION_ID fetch2 parseURL resolveURL u request)
    as [t [p|e|]]; cbn [try_catch]; try reflexivity.
  unfold fetch_call. now rewrite H.
Qed.

(** The telemetry hands the same request to both platforms. *)
Lemma emitTelemetry_fetches_agree (u : URL) (b c d : text) :
  fetches (fst (emitTelemetry ORGANIZATION_ID fetch1 parseURL randomUUID u b c d))
  = fetches (fst (emitTelemetry ORGANIZATION_ID fetch2 parseURL randomUUID u b c d)).
Proof.
  rewrite !emitTelemetry_trace. destruct (parseURL EXTERNAL_API_URL); [|reflexivity].
  cbv zeta. now destruct (fetch1 _), (fetch2 _).
Qed.

End TwoPlatforms.

(** ** finalizeResponse *)

Lemma Response_new_stream (resp : Response) (h : Headers) :
  constructible resp ->
  Response_new (resp_body resp) false (status resp) (statusText resp) h
  = Ok (mkResponse (status resp) (statusText resp) h (resp_body resp)).
Proof.
  intros [[Hlo Hhi] Hnull]. unfold Response_new.
  apply Nat.leb_le in Hlo, Hhi. rewrite Hlo, Hhi. cbn [andb negb].
  destruct (resp_body resp) eqn:Eb; [reflexivity| |];
    (destruct (null_body_status (status resp)); [now specialize (Hnull eq_refl) | reflexivity]).
Qed.

Lemma vary_after_spec (prev : option text) :
  (if truthy prev then or_empty prev ++ str ", User-Agent" else str "User-Agent")
  = vary_after prev.
Proof. now destruct prev as [[|c p]|]. Qed.


(** * The properties of the specification *)

(** C1. A request that carries the loop-prevention marker [X-Internal-Fetch]
    with value [true] is passed through: the handler hands the request itself
    to [fetch] and returns that promise, whatever the other headers, the
    user agent and the query are; the trace holds this one fetch and nothing
    else, so no classification line, telemetry, secondary-store fetch or
    injection happens. *)
Theorem marked_request_passes_through
    (ORGANIZATION_ID : text) (fetch : Request -> Promise Response)
    (parseURL : text -> option URL) (resolveURL : text -> text -> option URL)
    (randomUUID : text) (request : Request) (context : Context) :
  Headers_get (headers request) BYPASS_EDGE_FUNCTION_HEADER = Some (str "true") ->
  handler ORGANIZATION_ID fetch parseURL resolveURL randomUUID request context
  = ([EvFetch request], fetch request).
Proof.
  intros H. unfold handler. rewrite H. cbn [is_text].
  now rewrite text_eqb_refl.
Qed.

Lemma marked_request_passes_through_witness :
  handler ex_org (ex_platform ex_primary_down) ex_parseURL ex_resolveURL ex_uuid
    ex_marked_request ex_context
  = ([EvFetch ex_marked_request], ex_platform ex_primary_down ex_marked_request).
Proof. apply marked_request_passes_through. reflexivity. Defined.

(** C2, as the code has it.  The override is not kept for the case where no
    pattern matches: when the [user-agent] query parameter equals [chatgpt]
    up to case, the category is ChatGPT whatever the header matches.  Without
    the override the classifier is the reference definition of the
    specification: the eight case-insensitive patterns in order, the first
    match wins, and no match gives [Unknown], the name of the category None.
    The visitor counts as an AI visitor exactly when the category is not
    None. *)
Theorem classify_override_takes_precedence (ua : text) (query_ua : option text) :
  let category :=
    if override_chatgpt query_ua then ChatGPTUserAgent
    else spec_classify ua query_ua in
  classify ua query_ua = category_name category
  /\ (isAIVisitor ua (option_map toLowerCase query_ua) = false
      <-> category = NoCategory).
Proof.
  cbv zeta. rewrite classify_formula, isAIVisitor_formula. unfold spec_classify.
  destruct (override_chatgpt query_ua).
  - split; [reflexivity|]. split; [intros [? _]; discriminate | discriminate].
  - split.
    + now destruct (first_match ua spec_patterns).
    + destruct (first_match ua spec_patterns); split; try tauto;
        intros [_ ?]; discriminate.
Qed.

(** C2 as stated fails: a user agent that matches the GPTBot pattern only,
    with the query override present, is reported as ChatGPT by the code and
    as the GPT crawler by the reference definition. *)
Lemma classify_differs_from_reference :
  let ua := str "Mozilla/5.0 (compatible; GPTBot/1.0)" in
  let query_ua := Some (str "chatgpt") in
  spec_classify ua query_ua = GPTCrawler
  /\ classify ua query_ua = str "ChatGPT-User"
  /\ classify ua query_ua <> category_name (spec_classify ua query_ua).
Proof. vm_compute. repeat split; discriminate. Qed.

(** C3. Every request that [fetchWithHost] hands to [fetch] carries
    [X-Internal-Fetch: true] on the headers derived from the inbound ones,
    with or without the host rewrite, and the [bypassEdgeFunction] argument
    changes nothing of what the function does.  When the target is a URL,
    one request is handed on, the one of [outbound]. *)
Theorem fetchWithHost_always_marks
    (fetch : Request -> Promise Response) (parseURL : text -> option URL)
    (o : text) (u : URL) (req : Request) (fixHost logURL bypassEdgeFunction : bool) :
  Forall (fun r => Headers_get (headers r) BYPASS_EDGE_FUNCTION_HEADER
                   = Some (str "true"))
    (fetches (fst (fetchWithHost fetch parseURL o u req fixHost logURL
                     bypassEdgeFunction)))
  /\ fetchWithHost fetch parseURL o u req fixHost logURL bypassEdgeFunction
     = fetchWithHost fetch parseURL o u req fixHost logURL (negb bypassEdgeFunction)
  /\ (forall proxied,
        parseURL (o ++ pathname u ++ search u) = Some proxied ->
        fetches (fst (fetchWithHost fetch parseURL o u req fixHost logURL
                        bypassEdgeFunction))
        = [outbound proxied o req fixHost]).
Proof.
  split; [|split; [reflexivity|]].
  - destruct (parseURL (o ++ pathname u ++ search u)) as [p|] eqn:E.
    + rewrite (@fetchWithHost_parsed fetch parseURL o u req fixHost logURL
                 bypassEdgeFunction p E).
      cbn [fst]. rewrite fetches_app. destruct logURL; simpl;
        (constructor; [apply outbound_marked | constructor]).
    + rewrite (@fetchWithHost_unparsed fetch parseURL o u req fixHost logURL
                 bypassEdgeFunction E).
      constructor.
  - intros p E.
    rewrite (@fetchWithHost_parsed fetch parseURL o u req fixHost logURL
               bypassEdgeFunction p E).
    cbn [fst]. rewrite fetches_app. now destruct logURL.
Qed.

(** C4, as the code has it.  When the base text holds a closing body tag in
    any case, a fragment without dollar signs is put before the first such
    tag and the tag itself is written back as the lower-case [</body>]; the
    text before and after the tag is unchanged.  When the base text holds no
    closing body tag, the result is the base text followed by the fragment,
    for every fragment. *)
Theorem injectHTML_before_first_body_close (base fragment : text) :
  (exists pre tag post,
     base = pre ++ tag ++ post
     /\ ci_eq true tag (str "</body>")
     /\ (forall pre' tag' post', base = pre' ++ tag' ++ post' ->
           ci_eq true tag' (str "</body>") -> length pre <= length pre')
     /\ (no_dollar fragment = true ->
         injectHTML base fragment = pre ++ fragment ++ str "</body>" ++ post))
  \/
  ((forall pre tag post, base = pre ++ tag ++ post ->
      ~ ci_eq true tag (str "</body>"))
   /\ injectHTML base fragment = base ++ fragment).
Proof.
  destruct (injectHTML_cases base fragment)
    as [(pre & tag & post & Hb & Ht & Hfirst & Hr) | H]; [left | now right].
  exists pre, tag, post. repeat split; try assumption.
  intros Hd. rewrite Hr, getSubstitution_plain.
  - now rewrite <- app_assoc.
  - unfold no_dollar in *. rewrite forallb_app, Hd. reflexivity.
Qed.

(** C4 as stated fails: the closing tag is not left as it was.  The fragment
    goes before the tag, and the upper-case tag of the base text comes out
    in lower case. *)
Lemma injectHTML_rewrites_closing_tag :
  let pre := str "<html><body><p>X</p>" in
  let tag := str "</BODY>" in
  let post := str "</html>" in
  let fragment := str "<div>F</div>" in
  injectHTML (pre ++ tag ++ post) fragment
    = str "<html><body><p>X</p><div>F</div></body></html>"
  /\ injectHTML (pre ++ tag ++ post) fragment <> pre ++ fragment ++ tag ++ post.
Proof. vm_compute. split; [reflexivity | discriminate]. Qed.

(** The two examples of the specification for the injector. *)
Example injectHTML_spec_example :
  injectHTML (str "<html><body><p>X</p></body></html>") (str "<div>F</div>")
  = str "<html><body><p>X</p><div>F</div></body></html>".
Proof. reflexivity. Qed.

Example injectHTML_append_example :
  injectHTML (str "<p>X</p>") (str "<div>F</div>") = str "<p>X</p><div>F</div>".
Proof. reflexivity. Qed.

(** The replacement text of [String.prototype.replace] is a pattern: in a
    fragment, [$$] comes out as one dollar sign and [$&] as the matched
    tag. *)
Example injectHTML_dollar_example :
  injectHTML (str "<body></body>") (str "<p>$$5 $&</p>")
  = str "<body><p>$5 </body></p></body>".
Proof. reflexivity. Qed.



(** The example of the specification for the extractor, an identifier with
    characters of the expression syntax, an attribute before [id] that holds
    a star, and an element with an inner element of the same name. *)
Example extract_spec_example :
  extractElementOuterHTMLById ex_store_document (str "optimized-for-ai")
  = str "<section id='optimized-for-ai'>ABC</section>"
  /\ extractElementOuterHTMLById ex_store_document (str "missing") = [].
Proof. vm_compute. split; reflexivity. Qed.

Example extract_escaped_example :
  extractElementOuterHTMLById (str "<i id='axb'>1</i><b id='a.b'>2</b>") (str "a.b")
  = str "<b id='a.b'>2</b>".
Proof. vm_compute. reflexivity. Qed.

Example extract_star_example :
  extractElementOuterHTMLById (str "<div class='a*b' id='t'>ABC</div>") (str "t") = [].
Proof. vm_compute. reflexivity. Qed.

Example extract_nested_example :
  extractElementOuterHTMLById (str "<div id='t'>a<div>b</div>c</div>") (str "t")
  = str "<div id='t'>a<div>b</div>".
Proof. vm_compute. reflexivity. Qed.

(** C7, as the code has it.  For a response that can be rebuilt, the
    finalizer keeps status, status text and body, removes [Content-Length],
    and with [varyUA] sets [Vary] to the previous value followed by a comma
    and [User-Agent], or to [User-Agent] alone when there was no value; the
    previous value is kept whole, and nothing is done about a [User-Agent]
    that is already listed. *)
Theorem finalize_headers (resp : Response) (varyUA aiVariant : bool) :
  constructible resp ->
  exists resp',
    finalizeResponse resp varyUA aiVariant = Ok resp'
    /\ status resp' = status resp
    /\ statusText resp' = statusText resp
    /\ resp_body resp' = resp_body resp
    /\ Headers_get (resp_headers resp') (str "content-length") = None
    /\ Headers_get (resp_headers resp') (str "Vary")
       = if varyUA
         then Some (vary_after (Headers_get (resp_headers resp) (str "Vary")))
         else Headers_get (resp_headers resp) (str "Vary").
Proof.
  intros Hc. unfold finalizeResponse. rewrite (Response_new_stream _ Hc).
  eexists. split; [reflexivity|]. cbn [status statusText resp_body resp_headers].
  unfold Headers_copy. rewrite vary_after_spec.
  repeat split.
  - destruct aiVariant, varyUA;
      repeat (rewrite Headers_get_set_other by reflexivity);
      apply Headers_get_delete_same; reflexivity.
  - destruct aiVariant, varyUA;
      repeat (rewrite Headers_get_set_other by reflexivity);
      try (rewrite Headers_get_set_same by reflexivity);
      rewrite ?Headers_get_delete_other by reflexivity; reflexivity.
Qed.

Lemma finalize_headers_witness :
  exists resp',
    finalizeResponse ex_vary_response true true = Ok resp'
    /\ status resp' = 200
    /\ statusText resp' = str "OK"
    /\ resp_body resp' = TextBody (str "<html><body><p>X</p></body></html>")
    /\ Headers_get (resp_headers resp') (str "content-length") = None
    /\ Headers_get (resp_headers resp') (str "Vary")
       = Some (str "Accept-Encoding, User-Agent").
Proof.
  apply (@finalize_headers ex_vary_response true true).
  split; [simpl; lia | discriminate].
Defined.

(** C7 as stated fails: a [Vary] that already lists [User-Agent] gets a
    second entry. *)
Lemma finalize_duplicates_user_agent :
  let resp := mkResponse 200 (str "OK") [(str "Vary", str "User-Agent")] NoBody in
  exists resp',
    finalizeResponse resp true true = Ok resp'
    /\ Headers_get (resp_headers resp') (str "Vary")
       = Some (str "User-Agent, User-Agent").
Proof. eexists. split; reflexivity. Qed.

(** C5, as the code has it.  When the first fetch of the primary origin
    returns a 3xx response whose [Location] value is not empty and resolves
    against the primary origin, and the resolved origin, path and query form
    a URL, the orchestrator issues one more fetch, to the resolved origin with
    the host header rewritten, and the phase ends with what that fetch
    settles to: two fetches in all, and no third one when the second
    response is a redirect again.  What the try block then returns is what
    the last step makes of the second response. *)
Theorem redirect_followed_once
    (ORGANIZATION_ID : text) (fetch : Request -> Promise Response)
    (parseURL : text -> option URL) (resolveURL : text -> text -> option URL)
    (request : Request) (p1 p2 canon : URL) (r1 : Response) (loc : text) :
  let u := url request in
  let req1 := outbound p1 (origin u) request true in
  let req2 := outbound p2 (origin canon) request true in
  parseURL (origin u ++ pathname u ++ search u) = Some p1 ->
  fetch req1 = Resolved r1 ->
  300 <= status r1 < 400 ->
  Headers_get (resp_headers r1) (str "location") = Some loc ->
  loc <> [] ->
  resolveURL loc (origin u) = Some canon ->
  parseURL (origin canon ++ pathname canon ++ search canon) = Some p2 ->
  fetches (fst (fetchOrigin fetch parseURL resolveURL u request)) = [req1; req2]
  /\ snd (fetchOrigin fetch parseURL resolveURL u request) = awaited (fetch req2)
  /\ Headers_get (headers req2) (str "host")
     = Some (replace_first (origin canon) (str "https://") [])
  /\ forall t1 injectedHTML r2,
       fetchFragment ORGANIZATION_ID fetch parseURL u request
         = (t1, Normal injectedHTML) ->
       fetch req2 = Resolved r2 ->
       snd (tryBlock ORGANIZATION_ID fetch parseURL resolveURL u request)
       = snd (respond fetch request injectedHTML r2).
Proof.
  intros u req1 req2 Hp1 Hf1 Hst Hloc Hne Hres Hp2.
  pose proof (@fetchOrigin_redirect fetch parseURL resolveURL u request p1 p2
                canon r1 loc Hp1 Hf1 Hst Hloc Hne Hres Hp2) as Ho.
  fold req1 req2 in Ho. rewrite Ho. cbn [fst snd]. repeat split.
  - unfold req2, outbound. cbn [headers].
    apply Headers_get_set_same. reflexivity.
  - intros t1 inj r2 Hfrag Hf2. unfold awaited in Ho. rewrite Hf2 in Ho.
    cbn [await ret snd] in Ho.
    now rewrite (@tryBlock_phases _ _ _ _ _ _ _ _ _ _ Hfrag Ho).
Qed.

Lemma redirect_followed_once_witness :
  let fetch := ex_platform (ex_primary_redirect (str "/new-path")) in
  exists req1 req2,
    fetches (fst (fetchOrigin fetch ex_parseURL ex_resolveURL ex_url ex_request))
      = [req1; req2]
    /\ href (url req2) = str "https://site.example/new-path"
    /\ snd (fetchOrigin fetch ex_parseURL ex_resolveURL ex_url ex_request)
       = Normal (ex_page (str "text/html")).
Proof.
  intros fetch.
  destruct (@redirect_followed_once ex_org fetch ex_parseURL ex_resolveURL ex_request
              (mkURL (str "https://site.example/page") (str "https://site.example")
                 (str "/page") [] [])
              (mkURL (str "https://site.example/new-path") (str "https://site.example")
                 (str "/new-path") [] [])
              (mkURL (str "https://site.example/new-path") (str "https://site.example")
                 (str "/new-path") [] [])
              (mkResponse 302 (str "Found") [(str "Location", str "/new-path")] NoBody)
              (str "/new-path"))
    as (Hf & Hs & _ & _);
    try reflexivity; try discriminate; [simpl; lia|].
  eexists _, _. split; [exact Hf|]. split; [reflexivity | exact Hs].
Defined.

(** C5 as stated fails: a 3xx response that has a [Location] header, with an
    empty value, is not followed.  One fetch is made for the origin, the
    302 response is the result of the phase, and the handler decides on
    it. *)
Lemma empty_location_not_followed :
  let fetch := ex_platform (ex_primary_redirect []) in
  let r1 := mkResponse 302 (str "Found") [(str "Location", [])] NoBody in
  Headers_get (resp_headers r1) (str "location") = Some []
  /\ length (fetches (fst (fetchOrigin fetch ex_parseURL ex_resolveURL ex_url ex_request)))
     = 1
  /\ snd (fetchOrigin fetch ex_parseURL ex_resolveURL ex_url ex_request) = Normal r1.
Proof. vm_compute. repeat split. Qed.



(** The stages of the try block, each failing in turn: the secondary store
    is down, the primary origin is down, the location of a redirect does not
    resolve, the body of the page cannot be read, the response cannot be
    built on a null body status.  Every time the visitor gets the page of
    the pass-through. *)
Example agent_errors_by_stage :
  let served fetch :=
    snd (handler ex_org fetch ex_parseURL ex_resolveURL ex_uuid ex_request ex_context) in
  let page := Resolved (ex_page (str "text/html")) in
  served (ex_platform_store_down (ex_primary_page (str "text/html"))) = page
  /\ served (ex_platform ex_primary_down) = page
  /\ served (ex_platform (ex_primary_redirect (str "ftp:/nowhere"))) = page
  /\ served (ex_platform ex_primary_broken_body) = page
  /\ served (ex_platform ex_primary_not_modified) = page.
Proof. vm_compute. repeat split. Qed.

Example agent_errors_are_caught :
  let caught fetch :=
    filter (fun ev => match ev with EvError _ => true | _ => false end)
      (fst (handler ex_org fetch ex_parseURL ex_resolveURL ex_uuid ex_request ex_context)) in
  caught (ex_platform ex_primary_broken_body)
    = [catch_line (OtherError (str "connection reset"))]
  /\ caught (ex_platform ex_primary_not_modified) = [catch_line TypeError]
  /\ caught (ex_platform (ex_primary_redirect (str "ftp:/nowhere")))
     = [catch_line TypeError].
Proof. vm_compute. repeat split. Qed.

(** C9. The handler calls [fetch] for the telemetry POST and never awaits
    the promise: take two platforms that answer every request alike except
    those of the shape of the telemetry POST, on which they may succeed, fail
    or stay pending as they like.  For a detected visitor whose own request
    is not of that shape, the handler returns the same promise on both
    platforms and hands the same requests to [fetch] in the same order; a
    failed POST only adds a console line. *)
Theorem telemetry_outcome_invisible
    (ORGANIZATION_ID : text) (fetch1 fetch2 : Request -> Promise Response)
    (parseURL : text -> option URL) (resolveURL : text -> text -> option URL)
    (randomUUID : text) (request : Request) (context : Context) :
  (forall r, telemetry_shaped r = false -> fetch1 r = fetch2 r) ->
  telemetry_shaped request = false ->
  reaches_detection ORGANIZATION_ID request ->
  classified request ->
  snd (handler ORGANIZATION_ID fetch1 parseURL resolveURL randomUUID request context)
  = snd (handler ORGANIZATION_ID fetch2 parseURL resolveURL randomUUID request context)
  /\ fetches (fst (handler ORGANIZATION_ID fetch1 parseURL resolveURL randomUUID
                     request context))
     = fetches (fst (handler ORGANIZATION_ID fetch2 parseURL resolveURL randomUUID
                       request context)).
Proof.
  intros Hagree Hreq Hr Hc.
  rewrite (@handler_classified ORGANIZATION_ID fetch1 parseURL resolveURL randomUUID
             request context Hr Hc),
    (@handler_classified ORGANIZATION_ID fetch2 parseURL resolveURL randomUUID
             request context Hr Hc).
  rewrite (@agentPath_agree ORGANIZATION_ID fetch1 fetch2 parseURL resolveURL
             Hagree (url request) request (Hagree request Hreq)).
  split; [reflexivity|]. cbn [fst]. rewrite !fetches_app. f_equal.
  unfold prelude. rewrite !fetches_app. f_equal.
  apply emitTelemetry_fetches_agree.
Qed.

Lemma telemetry_outcome_invisible_witness :
  let failing := ex_platform_telemetry (Rejected (OtherError (str "timeout")))
                   (ex_primary_page (str "text/html")) in
  let pending := ex_platform_telemetry Pending (ex_primary_page (str "text/html")) in
  snd (handler ex_org failing ex_parseURL ex_resolveURL ex_uuid ex_request ex_context)
  = snd (handler ex_org pending ex_parseURL ex_resolveURL ex_uuid ex_request ex_context).
Proof.
  intros failing pending.
  apply (@telemetry_outcome_invisible ex_org failing pending ex_parseURL
           ex_resolveURL ex_uuid ex_request ex_context).
  - intros r Hr. unfold failing, pending, ex_platform_telemetry. now rewrite Hr.
  - reflexivity.
  - repeat split.
  - reflexivity.
Defined.

(** The failed POST shows in the trace as one console line, and nowhere
    else. *)
Example telemetry_failure_is_logged :
  let failing := ex_platform_telemetry (Rejected (OtherError (str "timeout")))
                   (ex_primary_page (str "text/html")) in
  let pending := ex_platform_telemetry Pending (ex_primary_page (str "text/html")) in
  filter (fun ev => match ev with EvError _ => true | _ => false end)
    (fst (handler ex_org failing ex_parseURL ex_resolveURL ex_uuid ex_request ex_context))
  = [telemetry_failure_line (OtherError (str "timeout"))]
  /\ filter (fun ev => match ev with EvError _ => true | _ => false end)
       (fst (handler ex_org pending ex_parseURL ex_resolveURL ex_uuid ex_request ex_context))
     = [].
Proof. vm_compute. split; reflexivity. Qed.

(** C10. The injection needs the lower-case text [text/html] inside the
    [Content-Type] value of the origin response after the redirect step.  For
    a detected visitor whose fragment and origin phases complete, an origin
    response whose content type does not hold this exact text (another
    case, or no header at all) sends the handler to the fallback: a console
    line and the pass-through of the inbound request, even with a fragment
    at hand. *)
Theorem non_html_origin_falls_back
    (ORGANIZATION_ID : text) (fetch : Request -> Promise Response)
    (parseURL : text -> option URL) (resolveURL : text -> text -> option URL)
    (randomUUID : text) (request : Request) (context : Context)
    (t1 t2 : list Event) (injectedHTML : text) (origResp : Response) :
  reaches_detection ORGANIZATION_ID request ->
  classified request ->
  fetchFragment ORGANIZATION_ID fetch parseURL (url request) request
    = (t1, Normal injectedHTML) ->
  fetchOrigin fetch parseURL resolveURL (url request) request
    = (t2, Normal origResp) ->
  (forall pre post, content_type origResp <> pre ++ str "text/html" ++ post) ->
  handler ORGANIZATION_ID fetch parseURL resolveURL randomUUID request context
  = (prelude ORGANIZATION_ID fetch parseURL randomUUID request context
       ++ t1 ++ t2 ++ [fallback_line; EvFetch request],
     fetch request).
Proof.
  intros Hr Hc Hfrag Horig Hct.
  assert (Hhtml : isHTMLResponse origResp = false).
  { destruct (isHTMLResponse origResp) eqn:E; [|reflexivity].
    apply isHTMLResponse_spec in E as [pre [post E]]. now destruct (Hct pre post). }
  rewrite (@handler_classified ORGANIZATION_ID fetch parseURL resolveURL randomUUID
             request context Hr Hc).
  pose proof (@tryBlock_phases _ _ _ _ _ _ _ _ _ _ Hfrag Horig) as Ht.
  rewrite (@respond_fallback fetch request injectedHTML origResp (or_intror Hhtml))
    in Ht.
  cbn [fst snd] in Ht.
  rewrite (@agentPath_not_throw _ _ _ _ _ _ _ _ Ht) by discriminate.
  reflexivity.
Qed.

Lemma non_html_origin_falls_back_witness :
  let fetch := ex_platform (ex_primary_page (str "Text/HTML")) in
  snd (handler ex_org fetch ex_parseURL ex_resolveURL ex_uuid ex_request ex_context)
  = fetch ex_request
  /\ extractElementOuterHTMLById ex_store_document (str "optimized-for-ai") <> [].
Proof.
  intros fetch. split; [|vm_compute; discriminate].
  erewrite (@non_html_origin_falls_back ex_org fetch ex_parseURL ex_resolveURL
              ex_uuid ex_request ex_context).
  - reflexivity.
  - repeat split.
  - reflexivity.
  - vm_compute. reflexivity.
  - vm_compute. reflexivity.
  - intros pre post H. apply (f_equal (fun s => includes s (str "text/html"))) in H.
    rewrite (proj2 (includes_spec (pre ++ str "text/html" ++ post) (str "text/html")))
      in H by (now exists pre, post).
    vm_compute in H. discriminate.
Defined.

(** With the lower-case content type the fragment is injected; with another
    case, or without the header, the visitor gets the page as it is. *)
Example html_test_is_case_sensitive :
  let served primary :=
    snd (handler ex_org (ex_platform primary) ex_parseURL ex_resolveURL ex_uuid
           ex_request ex_context) in
  let body p :=
    match p with
    | Resolved r => resp_body r
    | _ => NoBody
    end in
  body (served (ex_primary_page (str "text/html; charset=utf-8")))
    = TextBody (str "<html><body><p>X</p><section id='optimized-for-ai'>ABC</section></body></html>")
  /\ body (served (ex_primary_page (str "TEXT/HTML")))
     = TextBody (str "<html><body><p>X</p></body></html>")
  /\ body (served ex_primary_untyped)
     = TextBody (str "<html><body><p>X</p></body></html>").
Proof. vm_compute. repeat split. Qed.
(** * Further properties of the code *)


(** ** Strings of the early returns *)

Lemma endsWith_spec (s p : text) :
  endsWith s p = true <-> exists pre, s = pre ++ p.
Proof.
  unfold endsWith. rewrite andb_true_iff, Nat.leb_le, text_eqb_eq. split.
  - intros [_ H]. exists (firstn (length s - length p) s).
    rewrite <- H at 2. symmetry. apply firstn_skipn.
  - intros [pre ->]. rewrite length_app. split; [lia|].
    replace (length pre + length p - length p) with (length pre) by lia.
    rewrite skipn_app, skipn_all, Nat.sub_diag. reflexivity.
Qed.

Lemma drop_while_nil (f : ascii -> bool) (s : text) :
  drop_while f s = [] <-> forallb f s = true.
Proof.
  induction s as [|c s IH]; simpl; [tauto|].
  destruct (f c); simpl; [exact IH|]. split; discriminate.
Qed.

Lemma drop_while_head (f : ascii -> bool) (s : text) :
  forallb f (drop_while f s) = true -> drop_while f s = [].
Proof.
  induction s as [|c s IH]; simpl; [reflexivity|].
  destruct (f c) eqn:E; [exact IH|]. simpl. rewrite E. discriminate.
Qed.

Lemma forallb_rev (f : ascii -> bool) (s : text) :
  forallb f (rev s) = forallb f s.
Proof.
  induction s as [|c s IH]; [reflexivity|].
  simpl. rewrite forallb_app, IH. simpl. rewrite andb_true_r. apply andb_comm.
Qed.

(** [trim] leaves nothing exactly of the texts made of white space. *)
Lemma trim_nil (s : text) : trim s = [] <-> forallb is_space s = true.
Proof.
  unfold trim. split.
  - intros H. apply (f_equal (@rev ascii)) in H. rewrite rev_involutive in H.
    simpl in H. apply drop_while_nil in H. rewrite forallb_rev in H.
    apply drop_while_head in H. now apply drop_while_nil.
  - intros H. apply drop_while_nil in H. rewrite H. reflexivity.
Qed.

Lemma organization_missing_spec (ORGANIZATION_ID : text) :
  organization_missing ORGANIZATION_ID = forallb is_space ORGANIZATION_ID.
Proof.
  unfold organization_missing. apply eq_true_iff_eq.
  rewrite orb_true_iff, text_eqb_eq, trim_nil, Nat.eqb_eq. split.
  - intros [H | H]; [|exact H]. now destruct ORGANIZATION_ID.
  - now right.
Qed.

Lemma fetchWithHost_fetches (fetch : Request -> Promise Response)
    (parseURL : text -> option URL) (o : text) (u : URL) (req : Request)
    (fixHost logURL bypass : bool) :
  fetches (fst (fetchWithHost fetch parseURL o u req fixHost logURL bypass))
  = match parseURL (o ++ pathname u ++ search u) with
    | Some proxied => [outbound proxied o req fixHost]
    | None => []
    end.
Proof.
  destruct (parseURL (o ++ pathname u ++ search u)) as [p|] eqn:E.
  - rewrite (@fetchWithHost_parsed fetch parseURL o u req fixHost logURL bypass p E).
    cbn [fst]. rewrite fetches_app. now destruct logURL.
  - now rewrite (@fetchWithHost_unparsed fetch parseURL o u req fixHost logURL bypass E).
Qed.

(** X1. Without an organization identifier (the variable unset, empty or
    made of white space only) a request that does not carry the marker is
    passed through after one console error: no classification, no
    telemetry, one fetch. *)
Theorem blank_configuration_passes_through
    (ORGANIZATION_ID : text) (fetch : Request -> Promise Response)
    (parseURL : text -> option URL) (resolveURL : text -> text -> option URL)
    (randomUUID : text) (request : Request) (context : Context) :
  is_text (Headers_get (headers request) BYPASS_EDGE_FUNCTION_HEADER) (str "true")
    = false ->
  forallb is_space ORGANIZATION_ID = true ->
  handler ORGANIZATION_ID fetch parseURL resolveURL randomUUID request context
  = ([config_error_line; EvFetch request], fetch request).
Proof.
  intros Hm Hblank. unfold handler.
  rewrite Hm, organization_missing_spec, Hblank. reflexivity.
Qed.

Lemma blank_configuration_passes_through_witness :
  handler (str "  ") (ex_platform ex_primary_down) ex_parseURL ex_resolveURL
    ex_uuid ex_request ex_context
  = ([config_error_line; EvFetch ex_request],
     ex_platform ex_primary_down ex_request).
Proof.
  apply (@blank_configuration_passes_through (str "  ")
           (ex_platform ex_primary_down) ex_parseURL ex_resolveURL ex_uuid
           ex_request ex_context); reflexivity.
Defined.

(** X2. With the organization configured, a request whose path ends in
    [.txt] or [.xml] (in lower case) is passed through at once, whoever the
    visitor is: one fetch, no console line, no telemetry. *)
Theorem static_path_passes_through
    (ORGANIZATION_ID : text) (fetch : Request -> Promise Response)
    (parseURL : text -> option URL) (resolveURL : text -> text -> option URL)
    (randomUUID : text) (request : Request) (context : Context) (stem : text) :
  is_text (Headers_get (headers request) BYPASS_EDGE_FUNCTION_HEADER) (str "true")
    = false ->
  forallb is_space ORGANIZATION_ID = false ->
  pathname (url request) = stem ++ str ".txt"
  \/ pathname (url request) = stem ++ str ".xml" ->
  handler ORGANIZATION_ID fetch parseURL resolveURL randomUUID request context
  = ([EvFetch request], fetch request).
Proof.
  intros Hm Horg Hpath. unfold handler.
  rewrite Hm, organization_missing_spec, Horg.
  assert (endsWith (pathname (url request)) (str ".txt")
          || endsWith (pathname (url request)) (str ".xml") = true) as ->.
  { apply orb_true_iff. destruct Hpath as [H | H]; [left | right];
      apply endsWith_spec; now exists stem. }
  reflexivity.
Qed.

Lemma static_path_passes_through_witness :
  let request :=
    mkRequest (mkURL (str "https://site.example/robots.txt") (str "https://site.example")
                 (str "/robots.txt") [] [])
      (str "GET") [(str "User-Agent", str "GPTBot/1.0")] NoBody Follow in
  handler ex_org (ex_platform ex_primary_down) ex_parseURL ex_resolveURL
    ex_uuid request ex_context
  = ([EvFetch request], ex_platform ex_primary_down request).
Proof.
  intros request.
  apply (@static_path_passes_through ex_org (ex_platform ex_primary_down)
           ex_parseURL ex_resolveURL ex_uuid request ex_context (str "/robots"));
    [reflexivity | reflexivity | now left].
Defined.

(** X3. A visitor whose user agent holds none of the eight patterns, in any
    case, and whose query has no [chatgpt] override is served by one fetch of
    its own request; nothing is sent to the telemetry endpoint or to the
    secondary store. *)
Theorem undetected_visitor_single_fetch
    (ORGANIZATION_ID : text) (fetch : Request -> Promise Response)
    (parseURL : text -> option URL) (resolveURL : text -> text -> option URL)
    (randomUUID : text) (request : Request) (context : Context) :
  reaches_detection ORGANIZATION_ID request ->
  first_match (request_ua request) spec_patterns = NoCategory ->
  override_chatgpt (searchParams_get (searchParams (url request)) (str "user-agent"))
    = false ->
  snd (handler ORGANIZATION_ID fetch parseURL resolveURL randomUUID request context)
  = fetch request
  /\ fetches (fst (handler ORGANIZATION_ID fetch parseURL resolveURL randomUUID
                     request context))
     = [request].
Proof.
  intros Hr Hnone Hov. apply handler_not_classified; [exact Hr|].
  unfold request_qsAgent. apply isAIVisitor_formula. now split.
Qed.

Lemma undetected_visitor_single_fetch_witness :
  snd (handler ex_org (ex_platform ex_primary_down) ex_parseURL ex_resolveURL
         ex_uuid ex_browser_request ex_context)
  = ex_platform ex_primary_down ex_browser_request
  /\ fetches (fst (handler ex_org (ex_platform ex_primary_down) ex_parseURL
                     ex_resolveURL ex_uuid ex_browser_request ex_context))
     = [ex_browser_request].
Proof.
  apply (@undetected_visitor_single_fetch ex_org (ex_platform ex_primary_down)
           ex_parseURL ex_resolveURL ex_uuid ex_browser_request ex_context).
  - repeat split.
  - reflexivity.
  - reflexivity.
Defined.

(** X4. The handler does not work on its own fetches: a request that
    [fetchWithHost] hands to [fetch], for whatever origin and inbound
    request, is passed through unchanged when it reaches the handler, under
    every configuration. *)
Theorem own_fetches_pass_through
    (ORGANIZATION_ID : text) (fetch fetch' : Request -> Promise Response)
    (parseURL : text -> option URL) (resolveURL : text -> text -> option URL)
    (randomUUID : text) (o : text) (u : URL) (req : Request)
    (fixHost logURL bypassEdgeFunction : bool) (r : Request) (context : Context) :
  In r (fetches (fst (fetchWithHost fetch' parseURL o u req fixHost logURL
                        bypassEdgeFunction))) ->
  handler ORGANIZATION_ID fetch parseURL resolveURL randomUUID r context
  = ([EvFetch r], fetch r).
Proof.
  rewrite fetchWithHost_fetches.
  destruct (parseURL (o ++ pathname u ++ search u)) as [p|]; [|intros []].
  intros [<- | []]. unfold handler.
  rewrite (outbound_marked p o req fixHost). cbn [is_text].
  now rewrite text_eqb_refl.
Qed.

Lemma own_fetches_pass_through_witness :
  let r := outbound ex_url (str "https://site.example") ex_request true in
  handler ex_org (ex_platform ex_primary_down) ex_parseURL ex_resolveURL ex_uuid
    r ex_context
  = ([EvFetch r], ex_platform ex_primary_down r).
Proof.
  intros r.
  apply (@own_fetches_pass_through ex_org (ex_platform ex_primary_down)
           (ex_platform ex_primary_down) ex_parseURL ex_resolveURL ex_uuid
           (str "https://site.example") ex_url ex_request true false true r
           ex_context).
  vm_compute. now left.
Defined.

(** ** The requests the handler hands to [fetch] *)

Lemma bind_trace {A B : Type} (m : M A) (f : A -> M B) :
  fst (bind m f)
  = fst m ++ match snd m with Normal a => fst (f a) | _ => [] end.
Proof.
  destruct m as [t [a|e|]]; cbn [bind fst snd]; [|now rewrite app_nil_r..].
  now destruct (f a).
Qed.

Lemma bind_completion {A B : Type} (m : M A) (f : A -> M B) :
  snd (bind m f)
  = match snd m with
    | Normal a => snd (f a)
    | Throw e => Throw e
    | Never => Never
    end.
Proof.
  destruct m as [t [a|e|]]; cbn [bind fst snd]; try reflexivity.
  now destruct (f a).
Qed.

Lemma fetchWithHost_marked (fetch : Request -> Promise Response)
    (parseURL : text -> option URL) (o : text) (u : URL) (req : Request)
    (fixHost logURL bypass : bool) :
  Forall marked (fetches (fst (fetchWithHost fetch parseURL o u req fixHost logURL bypass)))
  /\ length (fetches (fst (fetchWithHost fetch parseURL o u req fixHost logURL bypass))) <= 1.
Proof.
  rewrite fetchWithHost_fetches.
  destruct (parseURL (o ++ pathname u ++ search u)) as [p|]; cbn [length]; split;
    try lia; [|constructor].
  constructor; [apply outbound_marked | constructor].
Qed.

Section Discipline.

Variable ORGANIZATION_ID : text.
Variable fetch : Request -> Promise Response.
Variable parseURL : text -> option URL.
Variable resolveURL : text -> text -> option URL.
Variable randomUUID : text.

Lemma fetchFragment_fetches (u : URL) (request : Request) :
  fetches (fst (fetchFragment ORGANIZATION_ID fetch parseURL u request))
  = fetches (fst (fetchWithHost fetch parseURL (ALT_ORIGIN ORGANIZATION_ID) u request
                    false true false)).
Proof.
  unfold fetchFragment.
  destruct (fetchWithHost fetch parseURL (ALT_ORIGIN ORGANIZATION_ID) u request
              false true false) as [t p].
  unfold call. cbn [fst snd]. rewrite bind_trace. cbn [fst snd].
  rewrite fetches_app. rewrite <- (app_nil_r (fetches t)) at 2. f_equal.
  destruct p as [r|e|]; cbn [await ret throw bind fst snd]; try reflexivity.
  unfold console_log. cbn [bind].
  destruct (ok r).
  - destruct (Response_text r) as [txt|e]; cbn [lift ret throw bind]; [|reflexivity].
    now destruct (extractElementOuterHTMLById txt (str "optimized-for-ai")).
  - reflexivity.
Qed.

Lemma fetchOrigin_fetches (u : URL) (request : Request) :
  Forall marked (fetches (fst (fetchOrigin fetch parseURL resolveURL u request)))
  /\ length (fetches (fst (fetchOrigin fetch parseURL resolveURL u request))) <= 2.
Proof.
  unfold fetchOrigin.
  pose proof (fetchWithHost_marked fetch parseURL (origin u) u request true false true)
    as [Hm Hl].
  destruct (fetchWithHost fetch parseURL (origin u) u request true false true) as [t p].
  unfold call. cbn [fst snd] in *. rewrite bind_trace. cbn [fst snd].
  rewrite fetches_app.
  destruct p as [r|e|]; cbn [await ret throw bind fst snd];
    [|rewrite app_nil_r; split; [exact Hm | lia]..].
  destruct ((300 <=? status r) && (status r <? 400));
    [|cbn [fst fetches flat_map]; rewrite app_nil_r; split; [exact Hm | lia]].
  destruct (truthy (Headers_get (resp_headers r) (str "location")));
    [|cbn [fst fetches flat_map]; rewrite app_nil_r; split; [exact Hm | lia]].
  unfold console_log, new_URL_base. cbn [bind].
  destruct (resolveURL _ _) as [canon|];
    [|cbn [throw fst fetches flat_map app]; rewrite app_nil_r; split; [exact Hm | lia]].
  cbn [ret bind].
  pose proof (fetchWithHost_marked fetch parseURL (origin canon) canon request true false
                (text_eqb (origin canon) (origin u))) as [Hm2 Hl2].
  destruct (fetchWithHost fetch parseURL (origin canon) canon request true false
              (text_eqb (origin canon) (origin u))) as [t2 p2].
  cbn [fst snd bind] in *.
  assert (fetches (fst (let (t', c) := await p2 in ((t2 ++ t')%list, c))) = fetches t2) as E.
  { destruct p2; cbn [await ret throw fst]; now rewrite app_nil_r. }
  destruct (await p2) as [t' c]. cbn [fst app] in *.
  change (fetches (EvLog ?a :: ?l)) with (fetches l).
  rewrite E. split; [now apply Forall_app | rewrite length_app; lia].
Qed.

Lemma respond_outcome (request : Request) (inj : text) (orig : Response) :
  (fetches (fst (respond fetch request inj orig)) = [request]
   /\ snd (respond fetch request inj orig) = Normal (fetch request))
  \/ (fetches (fst (respond fetch request inj orig)) = []
      /\ ((exists r, snd (respond fetch request inj orig) = Normal (Resolved r))
          \/ exists e, snd (respond fetch request inj orig) = Throw e)).
Proof.
  unfold respond.
  destruct (negb (length inj =? 0) && isHTMLResponse orig); [right | left; now split].
  unfold console_log. cbn [bind].
  destruct (Response_text orig) as [html|e]; cbn [lift ret throw bind fst snd];
    [|split; [reflexivity | right; now exists e]].
  destruct (Response_new _ _ _ _ _) as [created|e]; cbn [lift ret throw bind fst snd];
    [|split; [reflexivity | right; now exists e]].
  destruct (finalizeResponse created true true) as [final|e];
    cbn [lift ret throw bind fst snd];
    (split; [reflexivity|]); [left; now exists final | right; now exists e].
Qed.

End Discipline.

Section Outcome.

Variable ORGANIZATION_ID : text.
Variable fetch : Request -> Promise Response.
Variable parseURL : text -> option URL.
Variable resolveURL : text -> text -> option URL.
Variable randomUUID : text.

Lemma tryBlock_outcome (u : URL) (request : Request) :
  let tb := tryBlock ORGANIZATION_ID fetch parseURL resolveURL u request in
  exists ms,
    Forall marked ms /\ length ms <= 3
    /\ ((fetches (fst tb) = ms ++ [request] /\ snd tb = Normal (fetch request))
        \/ (fetches (fst tb) = ms
            /\ ((exists r, snd tb = Normal (Resolved r))
                \/ (exists e, snd tb = Throw e)
                \/ snd tb = Never))).
Proof.
  cbv zeta. unfold tryBlock. rewrite bind_trace, bind_completion, fetches_app.
  pose proof (fetchFragment_fetches ORGANIZATION_ID fetch parseURL u request) as E1.
  pose proof (fetchWithHost_marked fetch parseURL (ALT_ORIGIN ORGANIZATION_ID) u request
                false true false) as [M1 L1].
  rewrite <- E1 in M1, L1. clear E1.
  destruct (fetchFragment ORGANIZATION_ID fetch parseURL u request) as [t1 c1].
  cbn [fst snd] in *.
  destruct c1 as [inj|e|];
    [| exists (fetches t1); rewrite app_nil_r; repeat split;
       [exact M1 | lia | right; split; [reflexivity | right; left; now exists e]]
     | exists (fetches t1); rewrite app_nil_r; repeat split;
       [exact M1 | lia | right; split; [reflexivity | now right; right]]].
  rewrite bind_trace, bind_completion, fetches_app.
  pose proof (fetchOrigin_fetches fetch parseURL resolveURL u request) as [M2 L2].
  destruct (fetchOrigin fetch parseURL resolveURL u request) as [t2 c2].
  cbn [fst snd] in *.
  assert (Forall marked (fetches t1 ++ fetches t2)) as M12 by now apply Forall_app.
  assert (length (fetches t1 ++ fetches t2) <= 3) as L12 by (rewrite length_app; lia).
  destruct c2 as [orig|e|];
    [| exists (fetches t1 ++ fetches t2); rewrite app_nil_r; repeat split;
       [exact M12 | exact L12 | right; split; [reflexivity | right; left; now exists e]]
     | exists (fetches t1 ++ fetches t2); rewrite app_nil_r; repeat split;
       [exact M12 | exact L12 | right; split; [reflexivity | now right; right]]].
  exists (fetches t1 ++ fetches t2). repeat split; [exact M12 | exact L12 |].
  destruct (respond_outcome fetch request inj orig) as [[Ef Ec] | [Ef Ec]];
    rewrite Ef.
  - left. split; [now rewrite app_assoc | exact Ec].
  - right. rewrite app_nil_r. split; [reflexivity|].
    destruct Ec as [[r Hr] | [e He]]; [left; now exists r | right; left; now exists e].
Qed.

Lemma agentPath_outcome (u : URL) (request : Request) :
  let ap := agentPath ORGANIZATION_ID fetch parseURL resolveURL u request in
  exists ms,
    Forall marked ms /\ length ms <= 3
    /\ ((fetches (fst ap) = ms ++ [request] /\ snd ap = Normal (fetch request))
        \/ (fetches (fst ap) = ms
            /\ ((exists r, snd ap = Normal (Resolved r)) \/ snd ap = Never))).
Proof.
  cbv zeta. unfold agentPath.
  destruct (tryBlock_outcome u request) as (ms & Hm & Hl & H). cbv zeta in H.
  exists ms. split; [exact Hm|]. split; [exact Hl|].
  destruct (tryBlock ORGANIZATION_ID fetch parseURL resolveURL u request) as [t c].
  cbn [fst snd] in H.
  destruct H as [[Ef ->] | [Ef [[r ->] | [[e ->] | ->]]]]; cbn [try_catch fst snd].
  - now left.
  - right. split; [exact Ef | left; now exists r].
  - left. unfold console_error, fetch_call. cbn [bind fst snd].
    rewrite fetches_app, Ef. now split.
  - right. split; [exact Ef | now right].
Qed.

End Outcome.

Lemma prelude_fetches
    (ORGANIZATION_ID : text) (fetch : Request -> Promise Response)
    (parseURL : text -> option URL) (randomUUID : text)
    (request : Request) (context : Context) :
  fetches (prelude ORGANIZATION_ID fetch parseURL randomUUID request context)
  = match parseURL EXTERNAL_API_URL with
    | Some endpoint =>
        [telemetry_request ORGANIZATION_ID randomUUID endpoint request context]
    | None => []
    end.
Proof.
  unfold prelude. rewrite fetches_app, emitTelemetry_trace.
  destruct (parseURL EXTERNAL_API_URL) as [tu|]; [|reflexivity].
  cbv zeta. unfold telemetry_request.
  now destruct (fetch (mkRequest tu (str "POST") telemetry_headers _ Follow)).
Qed.

(** X5. The fetches of one invocation, for every request, context and
    platform: at most one telemetry POST first, then at most three requests
    that all carry the marker, then at most one fetch of the inbound request
    itself, which is then the last fetch and gives the handler's result.
    When the inbound request is not fetched the result is a response built
    by the handler, or the handler is still waiting; the handler's promise
    is rejected only if the fetch of the inbound request is. *)
Theorem handler_fetch_discipline
    (ORGANIZATION_ID : text) (fetch : Request -> Promise Response)
    (parseURL : text -> option URL) (resolveURL : text -> text -> option URL)
    (randomUUID : text) (request : Request) (context : Context) :
  let h := handler ORGANIZATION_ID fetch parseURL resolveURL randomUUID request context in
  exists tele ms,
    (tele = []
     \/ exists endpoint,
          parseURL EXTERNAL_API_URL = Some endpoint
          /\ tele = [telemetry_request ORGANIZATION_ID randomUUID endpoint request context])
    /\ Forall marked ms /\ length ms <= 3
    /\ ((fetches (fst h) = tele ++ ms ++ [request] /\ snd h = fetch request)
        \/ (fetches (fst h) = tele ++ ms
            /\ ((exists r, snd h = Resolved r) \/ snd h = Pending))).
Proof.
  cbv zeta.
  assert (forall h : list Event * Promise Response,
            fetches (fst h) = [request] -> snd h = fetch request ->
            exists tele ms,
              (tele = []
               \/ exists endpoint,
                    parseURL EXTERNAL_API_URL = Some endpoint
                    /\ tele = [telemetry_request ORGANIZATION_ID randomUUID endpoint
                                 request context])
              /\ Forall marked ms /\ length ms <= 3
              /\ ((fetches (fst h) = tele ++ ms ++ [request] /\ snd h = fetch request)
                  \/ (fetches (fst h) = tele ++ ms
                      /\ ((exists r, snd h = Resolved r) \/ snd h = Pending)))) as Hpass.
  { intros h Hf Hs. exists [], []. cbn [app length].
    repeat split; [now left | constructor | lia | left; now split]. }
  destruct (is_text (Headers_get (headers request) BYPASS_EDGE_FUNCTION_HEADER) (str "true"))
    eqn:Hm; [apply Hpass; unfold handler; now rewrite Hm|].
  destruct (organization_missing ORGANIZATION_ID) eqn:Ho;
    [apply Hpass; unfold handler; now rewrite Hm, Ho|].
  destruct (endsWith (pathname (url request)) (str ".txt")
            || endsWith (pathname (url request)) (str ".xml")) eqn:Hs;
    [apply Hpass; unfold handler; now rewrite Hm, Ho, Hs|].
  assert (reaches_detection ORGANIZATION_ID request) as Hr by now repeat split.
  destruct (isAIVisitor (request_ua request) (request_qsAgent request)) eqn:Hc.
  - rewrite (@handler_classified ORGANIZATION_ID fetch parseURL resolveURL randomUUID
               request context Hr Hc).
    cbn [fst snd]. rewrite fetches_app, prelude_fetches.
    destruct (agentPath_outcome ORGANIZATION_ID fetch parseURL resolveURL
                (url request) request) as (ms & HM & HL & H). cbv zeta in H.
    destruct (agentPath ORGANIZATION_ID fetch parseURL resolveURL (url request) request)
      as [ta ca]. cbn [fst snd] in H |- *.
    assert (exists tele,
              (tele = []
               \/ exists endpoint,
                    parseURL EXTERNAL_API_URL = Some endpoint
                    /\ tele = [telemetry_request ORGANIZATION_ID randomUUID endpoint
                                 request context])
              /\ match parseURL EXTERNAL_API_URL with
                 | Some tu => [telemetry_request ORGANIZATION_ID randomUUID tu
                                 request context]
                 | None => []
                 end = tele) as (tele & Ht & ->).
    { destruct (parseURL EXTERNAL_API_URL) as [tu|].
      - exists [telemetry_request ORGANIZATION_ID randomUUID tu request context].
        split; [right; exists tu; now split | reflexivity].
      - exists []. split; [now left | reflexivity]. }
    exists tele, ms. split; [exact Ht|]. split; [exact HM|]. split; [exact HL|].
    destruct H as [[Ef ->] | [Ef [[r ->] | ->]]]; rewrite Ef; cbn [settle].
    + now left.
    + right. split; [reflexivity | left; now exists r].
    + right. split; [reflexivity | now right].
  - destruct (@handler_not_classified ORGANIZATION_ID fetch parseURL resolveURL
                randomUUID request context Hr Hc) as [Hs' Hf'].
    now apply Hpass.
Qed.

(** ** The telemetry event *)

Lemma botType_named (request : Request) :
  classified request -> In (botType_of request) bot_names.
Proof.
  unfold classified, isAIVisitor, botType_of, determineBotType, bot_names.
  destruct (isChatGPT _ _); [intros _; now left|].
  destruct (isGPTBot _); [intros _; right; now left|].
  destruct (isGoogleExtended _); [intros _; do 2 right; now left|].
  destruct (isBingPreview _); [intros _; do 3 right; now left|].
  destruct (isPerplexity _); [intros _; do 4 right; now left|].
  destruct (isClaudeUser _); [intros _; do 5 right; now left|].
  destruct (isClaudeWeb _); [intros _; do 6 right; now left|].
  destruct (isClaudeBot _); [intros _; do 7 right; now left|].
  discriminate.
Qed.

Lemma truthy_or_empty (o : option text) : truthy o = true -> or_empty o <> [].
Proof. destruct o as [[|c t]|]; cbn; congruence. Qed.

(** X6. For a detected visitor the first request handed to [fetch] is the
    telemetry POST, before anything is fetched for the visitor.  The event
    names one of the eight bot types (never [Unknown]) and its client
    address and country are never empty: a missing or empty value is
    reported as [unknown]. *)
Theorem telemetry_event_sent_first
    (ORGANIZATION_ID : text) (fetch : Request -> Promise Response)
    (parseURL : text -> option URL) (resolveURL : text -> text -> option URL)
    (randomUUID : text) (request : Request) (context : Context) (endpoint : URL) :
  reaches_detection ORGANIZATION_ID request ->
  classified request ->
  parseURL EXTERNAL_API_URL = Some endpoint ->
  (exists rest,
     fetches (fst (handler ORGANIZATION_ID fetch parseURL resolveURL randomUUID
                     request context))
     = telemetry_request ORGANIZATION_ID randomUUID endpoint request context :: rest)
  /\ In (botType_of request) bot_names
  /\ clientIp_of request context <> []
  /\ country_of context <> [].
Proof.
  intros Hr Hc He. split; [|split; [now apply botType_named | split]].
  - rewrite (@handler_classified ORGANIZATION_ID fetch parseURL resolveURL randomUUID
               request context Hr Hc).
    cbn [fst]. rewrite fetches_app, prelude_fetches, He. cbn [app]. now eexists.
  - unfold clientIp_of. destruct (truthy (ip context)) eqn:E1.
    + now apply truthy_or_empty.
    + destruct (truthy (Headers_get (headers request) (str "x-forwarded-for"))) eqn:E2;
        [now apply truthy_or_empty | discriminate].
  - unfold country_of. destruct (truthy (geo_country_code context)) eqn:E;
      [now apply truthy_or_empty | discriminate].
Qed.

Lemma telemetry_event_sent_first_witness :
  (exists rest,
     fetches (fst (handler ex_org (ex_platform ex_primary_down) ex_parseURL
                     ex_resolveURL ex_uuid ex_request ex_context))
     = telemetry_request ex_org ex_uuid
         (mkURL EXTERNAL_API_URL (str "https://22i9zfydr3.execute-api.us-west-2.amazonaws.com")
            (str "/prod/event_stream") [] [])
         ex_request ex_context :: rest)
  /\ In (botType_of ex_request) bot_names
  /\ clientIp_of ex_request ex_context <> []
  /\ country_of ex_context <> [].
Proof.
  apply (@telemetry_event_sent_first ex_org (ex_platform ex_primary_down) ex_parseURL
           ex_resolveURL ex_uuid ex_request ex_context).
  - repeat split.
  - reflexivity.
  - reflexivity.
Defined.

(** ** escapeRegExp *)

Lemma ci_eq_exact (g p : text) : ci_eq false g p <-> g = p.
Proof.
  unfold ci_eq. split.
  - induction 1 as [|x c g' p' Hx _ IH]; [reflexivity|].
    unfold char_eq in Hx. apply Ascii.eqb_eq in Hx. now subst.
  - intros ->. induction p as [|c p IH]; constructor; [|exact IH].
    unfold char_eq. apply Ascii.eqb_refl.
Qed.

Lemma escape_char_length (c : ascii) : 1 <= length (escape_char c) <= 2.
Proof. unfold escape_char. destruct (is_syntax_char c); cbn; lia. Qed.

Lemma flat_map_escape_length (s : text) :
  length s <= length (flat_map escape_char s) <= 2 * length s.
Proof.
  induction s as [|c s IH]; [cbn; lia|].
  cbn [flat_map]. rewrite length_app. pose proof (escape_char_length c).
  cbn [length]. lia.
Qed.

Lemma escape_char_syntax (c : ascii) :
  is_syntax_char c = true -> escape_char c = ["\"%char; c].
Proof. unfold escape_char. now intros ->. Qed.

Lemma escape_char_plain (c : ascii) :
  is_syntax_char c = false -> escape_char c = [c].
Proof. unfold escape_char. now intros ->. Qed.

Lemma flat_map_escape_plain (s : text) :
  plain_text s = true <-> flat_map escape_char s = s.
Proof.
  unfold plain_text. induction s as [|c s IH]; [now split|].
  cbn [forallb flat_map]. rewrite andb_true_iff, negb_true_iff, IH.
  destruct (is_syntax_char c) eqn:E.
  - rewrite (escape_char_syntax _ E). split; [intros [? _]; discriminate|].
    intros H. exfalso.
    assert (length (["\"%char; c] ++ flat_map escape_char s) = length (c :: s)) as L
      by now rewrite H.
    rewrite length_app in L. pose proof (flat_map_escape_length s). cbn [length] in L. lia.
  - rewrite (escape_char_plain _ E). cbn [app]. split; [intros [_ ->]; reflexivity|].
    intros [= H]. now split.
Qed.

Lemma backslash_syntax : is_syntax_char "\"%char = true.
Proof. reflexivity. Qed.

Lemma flat_map_escape_injective (a b : text) :
  flat_map escape_char a = flat_map escape_char b -> a = b.
Proof.
  revert b. induction a as [|x a IH]; intros [|y b]; cbn [flat_map].
  - reflexivity.
  - destruct (is_syntax_char y) eqn:Ey;
      [rewrite (escape_char_syntax _ Ey) | rewrite (escape_char_plain _ Ey)];
      discriminate.
  - destruct (is_syntax_char x) eqn:Ex;
      [rewrite (escape_char_syntax _ Ex) | rewrite (escape_char_plain _ Ex)];
      discriminate.
  - destruct (is_syntax_char x) eqn:Ex, (is_syntax_char y) eqn:Ey;
      [rewrite (escape_char_syntax _ Ex), (escape_char_syntax _ Ey)
      |rewrite (escape_char_syntax _ Ex), (escape_char_plain _ Ey)
      |rewrite (escape_char_plain _ Ex), (escape_char_syntax _ Ey)
      |rewrite (escape_char_plain _ Ex), (escape_char_plain _ Ey)]; cbn [app].
    + intros [= -> H]. f_equal. now apply IH.
    + intros [= <- _]. now rewrite backslash_syntax in Ey.
    + intros [= -> _]. now rewrite backslash_syntax in Ex.
    + intros [= -> H]. f_equal. now apply IH.
Qed.

(** X7. A pattern built from an escaped text matches that text and nothing
    else: without the [i] flag the test finds exactly the texts that include
    it, with the flag the texts that include it up to case. *)
Theorem escapeRegExp_matches_literally (s t : text) :
  test false (literal_pattern (escapeRegExp s)) t = includes t s
  /\ test true (literal_pattern (escapeRegExp s)) t = ci_contains t s.
Proof.
  rewrite literal_pattern_escaped. split; [|apply test_lit_ci].
  apply eq_true_iff_eq. rewrite test_lit_iff, includes_spec. split.
  - intros (pre & g & post & -> & Hg). apply ci_eq_exact in Hg. subst g.
    now exists pre, post.
  - intros (pre & post & ->). exists pre, s, post. split; [reflexivity|].
    now apply ci_eq_exact.
Qed.

(** X8. [escapeRegExp] puts one backslash before each syntax character and
    changes nothing else: the result has between one and two times the
    length of the text, a text is its own escape exactly when it has no
    syntax character, and two texts with the same escape are equal. *)
Theorem escapeRegExp_shape (s : text) :
  length s <= length (escapeRegExp s) <= 2 * length s
  /\ (plain_text s = true <-> escapeRegExp s = s)
  /\ (forall s', escapeRegExp s = escapeRegExp s' -> s = s').
Proof.
  rewrite escapeRegExp_spec. split; [apply flat_map_escape_length|].
  split; [apply flat_map_escape_plain|].
  intros s'. rewrite escapeRegExp_spec. apply flat_map_escape_injective.
Qed.

(** ** The requests of [fetchWithHost] *)

Lemma replace_first_prefix (p t r : text) : replace_first (p ++ t) p r = r ++ t.
Proof.
  destruct (p ++ t) as [|c s] eqn:E; cbn [replace_first].
  - destruct p; [|discriminate]. cbn in E. subst t. reflexivity.
  - assert (starts_with p (c :: s) = true) as -> by (apply starts_with_spec; now exists t).
    rewrite <- E, skipn_app, skipn_all, Nat.sub_diag. reflexivity.
Qed.

Lemma replace_first_absent (s p r : text) :
  includes s p = false -> replace_first s p r = s.
Proof.
  induction s as [|c s IH]; cbn [includes replace_first]; intros H;
    apply orb_false_iff in H as [-> H]; [reflexivity|].
  f_equal. now apply IH.
Qed.

(** X9. What [fetchWithHost] changes in the request it sends on: the URL,
    the marker, the host header when asked to fix it, the redirect mode,
    which is manual, and the body, which is dropped for GET and HEAD.  The
    method and every other header are those of the inbound request; when
    the host is not fixed the inbound host header goes along. *)
Theorem fetchWithHost_request_frame
    (fetch : Request -> Promise Response) (parseURL : text -> option URL)
    (o : text) (u : URL) (req : Request) (fixHost logURL bypassEdgeFunction : bool)
    (r : Request) :
  In r (fetches (fst (fetchWithHost fetch parseURL o u req fixHost logURL
                        bypassEdgeFunction))) ->
  parseURL (o ++ pathname u ++ search u) = Some (url r)
  /\ method r = method req
  /\ redirect r = Manual
  /\ (body r = body req
      \/ body r = NoBody /\ (method req = str "GET" \/ method req = str "HEAD"))
  /\ (forall name,
        name_eqb BYPASS_EDGE_FUNCTION_HEADER name = false ->
        (if fixHost then name_eqb (str "host") name else false) = false ->
        Headers_get (headers r) name = Headers_get (headers req) name).
Proof.
  rewrite fetchWithHost_fetches.
  destruct (parseURL (o ++ pathname u ++ search u)) as [p|]; [|intros []].
  intros [<- | []]. unfold outbound. cbn [url method redirect body headers].
  repeat split.
  - destruct (text_eqb (method req) (str "GET")) eqn:E1.
    + right. split; [reflexivity | left; now apply text_eqb_eq].
    + destruct (text_eqb (method req) (str "HEAD")) eqn:E2.
      * right. split; [reflexivity | right; now apply text_eqb_eq].
      * now left.
  - intros name Hb Hh. destruct fixHost.
    + now rewrite Headers_get_set_other, Headers_get_set_other.
    + now rewrite Headers_get_set_other.
Qed.

Lemma fetchWithHost_request_frame_witness :
  let r := outbound ex_url (str "https://site.example") ex_request true in
  method r = str "GET"
  /\ redirect r = Manual
  /\ Headers_get (headers r) (str "user-agent")
     = Some (str "Mozilla/5.0 (compatible; GPTBot/1.0)").
Proof.
  intros r.
  destruct (@fetchWithHost_request_frame (ex_platform ex_primary_down) ex_parseURL
              (str "https://site.example") ex_url ex_request true false true r)
    as (_ & Hm & Hr & _ & Hh).
  - vm_compute. now left.
  - split; [exact Hm|]. split; [exact Hr|].
    rewrite (Hh (str "user-agent")); reflexivity.
Defined.

(** X10. The host header of a request sent with the host fixed is the
    origin without its first [https://]: the host of an https origin, and
    the whole origin, scheme included, when the origin has no [https://]
    in it. *)
Theorem fetchWithHost_host_header
    (fetch : Request -> Promise Response) (parseURL : text -> option URL)
    (o : text) (u : URL) (req : Request) (logURL bypassEdgeFunction : bool)
    (r : Request) :
  In r (fetches (fst (fetchWithHost fetch parseURL o u req true logURL
                        bypassEdgeFunction))) ->
  (forall host, o = str "https://" ++ host ->
     Headers_get (headers r) (str "host") = Some host)
  /\ (includes o (str "https://") = false ->
      Headers_get (headers r) (str "host") = Some o).
Proof.
  rewrite fetchWithHost_fetches.
  destruct (parseURL (o ++ pathname u ++ search u)) as [p|]; [|intros []].
  intros [<- | []]. unfold outbound. cbn [headers].
  rewrite Headers_get_set_same by reflexivity. split.
  - intros host ->. now rewrite replace_first_prefix.
  - intros H. now rewrite replace_first_absent.
Qed.

Lemma fetchWithHost_host_header_witness :
  Headers_get
    (headers (outbound ex_url (str "https://site.example") ex_request true))
    (str "host")
  = Some (str "site.example").
Proof.
  apply (@fetchWithHost_host_header (ex_platform ex_primary_down) ex_parseURL
           (str "https://site.example") ex_url ex_request false true
           (outbound ex_url (str "https://site.example") ex_request true)).
  - vm_compute. now left.
  - reflexivity.
Defined.

(** ** The page of the primary origin *)

(** X11. The primary origin is fetched a second time only after a first
    response with a status from 300 to 399 and a non-empty [Location] that
    resolves against the origin: without them there is one fetch at most. *)
Theorem second_origin_fetch_needs_redirect
    (fetch : Request -> Promise Response) (parseURL : text -> option URL)
    (resolveURL : text -> text -> option URL) (u : URL) (request : Request) :
  1 < length (fetches (fst (fetchOrigin fetch parseURL resolveURL u request))) ->
  exists p1 r1 loc canon,
    parseURL (origin u ++ pathname u ++ search u) = Some p1
    /\ fetch (outbound p1 (origin u) request true) = Resolved r1
    /\ 300 <= status r1 < 400
    /\ Headers_get (resp_headers r1) (str "location") = Some loc
    /\ loc <> []
    /\ resolveURL loc (origin u) = Some canon.
Proof.
  unfold fetchOrigin.
  destruct (parseURL (origin u ++ pathname u ++ search u)) as [p1|] eqn:Hp;
    [|rewrite (@fetchWithHost_unparsed fetch parseURL (origin u) u request true false
                 true Hp); cbn; lia].
  rewrite (@fetchWithHost_parsed fetch parseURL (origin u) u request true false true
             p1 Hp).
  unfold call. cbn [fst snd app]. rewrite bind_trace. cbn [fst snd].
  destruct (fetch (outbound p1 (origin u) request true)) as [r1|e|] eqn:Hf;
    cbn [await ret throw bind fst snd]; [|cbn; lia..].
  destruct ((300 <=? status r1) && (status r1 <? 400)) eqn:Hs; [|cbn; lia].
  destruct (Headers_get (resp_headers r1) (str "location")) as [[|c loc]|] eqn:Hl;
    cbn [truthy]; [cbn; lia | | cbn; lia].
  unfold new_URL_base. cbn [or_empty].
  destruct (resolveURL (c :: loc) (origin u)) as [canon|] eqn:Hres; [|cbn; lia].
  intros _. exists p1, r1, (c :: loc), canon.
  apply andb_true_iff in Hs as [Hlo Hhi].
  apply Nat.leb_le in Hlo. apply Nat.ltb_lt in Hhi.
  repeat split; try assumption; try reflexivity. discriminate.
Qed.

Lemma second_origin_fetch_needs_redirect_witness :
  exists p1 r1 loc canon,
    ex_parseURL (origin ex_url ++ pathname ex_url ++ search ex_url) = Some p1
    /\ ex_platform (ex_primary_redirect (str "/new-path"))
         (outbound p1 (origin ex_url) ex_request true) = Resolved r1
    /\ 300 <= status r1 < 400
    /\ Headers_get (resp_headers r1) (str "location") = Some loc
    /\ loc <> []
    /\ ex_resolveURL loc (origin ex_url) = Some canon.
Proof.
  apply (@second_origin_fetch_needs_redirect
           (ex_platform (ex_primary_redirect (str "/new-path"))) ex_parseURL
           ex_resolveURL ex_url ex_request).
  vm_compute. lia.
Defined.

(** ** finalizeResponse *)

Lemma other_name_finalizer (name : text) :
  other_name finalizer_names name = true ->
  name_eqb (str "content-length") name = false
  /\ name_eqb (str "Vary") name = false
  /\ name_eqb (str "Cache-Control") name = false
  /\ name_eqb (str "Pragma") name = false.
Proof.
  unfold other_name, finalizer_names. cbn [forallb].
  rewrite !andb_true_iff, !negb_true_iff. tauto.
Qed.

(** X12. The cache headers of the finalizer: for an AI variant
    [Cache-Control] becomes [private, no-store, max-age=0] and [Pragma]
    becomes [no-cache], whatever they were; otherwise both stay.  Every
    header other than [content-length], [Vary], [Cache-Control] and [Pragma]
    reads as before. *)
Theorem finalize_cache_headers (resp : Response) (varyUA aiVariant : bool) :
  constructible resp ->
  exists resp',
    finalizeResponse resp varyUA aiVariant = Ok resp'
    /\ Headers_get (resp_headers resp') (str "Cache-Control")
       = (if aiVariant then Some (str "private, no-store, max-age=0")
          else Headers_get (resp_headers resp) (str "Cache-Control"))
    /\ Headers_get (resp_headers resp') (str "Pragma")
       = (if aiVariant then Some (str "no-cache")
          else Headers_get (resp_headers resp) (str "Pragma"))
    /\ (forall name, other_name finalizer_names name = true ->
          Headers_get (resp_headers resp') name
          = Headers_get (resp_headers resp) name).
Proof.
  intros Hc. unfold finalizeResponse. rewrite (Response_new_stream _ Hc).
  eexists. split; [reflexivity|]. cbn [resp_headers]. unfold Headers_copy.
  split; [|split].
  - destruct aiVariant.
    + rewrite Headers_get_set_other by reflexivity.
      now rewrite Headers_get_set_same by reflexivity.
    + destruct varyUA; rewrite ?Headers_get_set_other by reflexivity;
        now rewrite Headers_get_delete_other by reflexivity.
  - destruct aiVariant.
    + now rewrite Headers_get_set_same by reflexivity.
    + destruct varyUA; rewrite ?Headers_get_set_other by reflexivity;
        now rewrite Headers_get_delete_other by reflexivity.
  - intros name Hn. apply other_name_finalizer in Hn as (H1 & H2 & H3 & H4).
    destruct aiVariant, varyUA;
      rewrite ?(Headers_get_set_other _ _ _ _ H4), ?(Headers_get_set_other _ _ _ _ H3),
        ?(Headers_get_set_other _ _ _ _ H2);
      now rewrite (Headers_get_delete_other _ _ _ H1).
Qed.

Lemma finalize_cache_headers_witness :
  exists resp',
    finalizeResponse ex_vary_response true true = Ok resp'
    /\ Headers_get (resp_headers resp') (str "Cache-Control")
       = Some (str "private, no-store, max-age=0")
    /\ Headers_get (resp_headers resp') (str "Pragma") = Some (str "no-cache")
    /\ (forall name, other_name finalizer_names name = true ->
          Headers_get (resp_headers resp') name
          = Headers_get (resp_headers ex_vary_response) name).
Proof.
  apply (@finalize_cache_headers ex_vary_response true true).
  split; [simpl; lia | discriminate].
Defined.


(** ** The fragment of the secondary store *)

(** X14. When the secondary store answers with a status outside 200..299
    the fragment is empty and the body of the answer is not read, whatever
    it is: the phase completes normally after that one fetch. *)
Theorem store_miss_gives_no_fragment
    (ORGANIZATION_ID : text) (fetch : Request -> Promise Response)
    (parseURL : text -> option URL) (u : URL) (request : Request)
    (proxied : URL) (altResp : Response) :
  parseURL (ALT_ORIGIN ORGANIZATION_ID ++ pathname u ++ search u) = Some proxied ->
  fetch (outbound proxied (ALT_ORIGIN ORGANIZATION_ID) request false)
    = Resolved altResp ->
  ok altResp = false ->
  snd (fetchFragment ORGANIZATION_ID fetch parseURL u request) = Normal []
  /\ fetches (fst (fetchFragment ORGANIZATION_ID fetch parseURL u request))
     = [outbound proxied (ALT_ORIGIN ORGANIZATION_ID) request false].
Proof.
  intros Hp Hf Hok. split.
  - unfold fetchFragment.
    rewrite (@fetchWithHost_parsed fetch parseURL (ALT_ORIGIN ORGANIZATION_ID) u request
               false true false proxied Hp).
    unfold call. cbn [fst snd]. rewrite Hf.
    rewrite bind_completion. cbn [snd].
    rewrite bind_completion. cbn [await ret snd].
    rewrite bind_completion. cbn [console_log snd].
    rewrite Hok. reflexivity.
  - rewrite fetchFragment_fetches, fetchWithHost_fetches. now rewrite Hp.
Qed.

Lemma store_miss_gives_no_fragment_witness :
  let store_gone (r : Request) : Promise Response :=
    Resolved (mkResponse 404 (str "Not Found") []
                (BrokenBody (OtherError (str "connection reset")))) in
  snd (fetchFragment ex_org store_gone ex_parseURL ex_url ex_request) = Normal []
  /\ length (fetches (fst (fetchFragment ex_org store_gone ex_parseURL ex_url
                             ex_request))) = 1.
Proof.
  intros store_gone.
  destruct (@store_miss_gives_no_fragment ex_org store_gone ex_parseURL ex_url
              ex_request
              (mkURL (str "https://salespeak-public-serving.s3.amazonaws.com/acme/page")
                 (str "https://salespeak-public-serving.s3.amazonaws.com")
                 (str "/acme/page") [] [])
              (mkResponse 404 (str "Not Found") []
                 (BrokenBody (OtherError (str "connection reset")))))
    as [Hs Hf]; try reflexivity.
  split; [exact Hs | now rewrite Hf].
Defined.

(** ** The last step of the agent path *)

Section Serving.

Variable ORGANIZATION_ID : text.
Variable fetch : Request -> Promise Response.
Variable parseURL : text -> option URL.
Variable resolveURL : text -> text -> option URL.
Variable randomUUID : text.

Lemma html_has_content_type (orig : Response) :
  isHTMLResponse orig = true ->
  exists ct, Headers_get (resp_headers orig) (str "content-type") = Some ct.
Proof.
  unfold isHTMLResponse.
  destruct (Headers_get (resp_headers orig) (str "content-type")) as [ct|];
    [now exists ct | discriminate].
Qed.

Lemma length_eqb_0 (inj : text) : inj <> [] -> negb (length inj =? 0) = true.
Proof. destruct inj; [contradiction | reflexivity]. Qed.

(** The response [new Response(transformedHTML, ...)] gives for an HTML page
    on a status that takes a body. *)
Lemma Response_new_page (orig : Response) (t : text) :
  isHTMLResponse orig = true ->
  200 <= status orig <= 599 ->
  null_body_status (status orig) = false ->
  Response_new (TextBody t) true (status orig) (statusText orig) (resp_headers orig)
  = Ok (mkResponse (status orig) (statusText orig) (resp_headers orig) (TextBody t)).
Proof.
  intros Hh [Hlo Hhi] Hn. unfold Response_new.
  apply Nat.leb_le in Hlo, Hhi. rewrite Hlo, Hhi, Hn. cbn [andb negb].
  destruct (html_has_content_type _ Hh) as [ct ->]. reflexivity.
Qed.

Lemma Response_new_refused (orig : Response) (t : text) :
  status orig < 200 \/ 599 < status orig \/ null_body_status (status orig) = true ->
  exists e,
    Response_new (TextBody t) true (status orig) (statusText orig) (resp_headers orig)
    = Raise e.
Proof.
  intros H. unfold Response_new.
  destruct (negb ((200 <=? status orig) && (status orig <=? 599))) eqn:E;
    [now exists RangeError|].
  apply negb_false_iff, andb_true_iff in E as [Hlo Hhi].
  apply Nat.leb_le in Hlo, Hhi.
  destruct H as [H | [H | ->]]; [lia | lia | now exists TypeError].
Qed.

Lemma agentPath_phases (u : URL) (request : Request) (t1 t2 : list Event)
    (inj : text) (orig : Response) :
  fetchFragment ORGANIZATION_ID fetch parseURL u request = (t1, Normal inj) ->
  fetchOrigin fetch parseURL resolveURL u request = (t2, Normal orig) ->
  agentPath ORGANIZATION_ID fetch parseURL resolveURL u request
  = try_catch (t1 ++ t2 ++ fst (respond fetch request inj orig),
               snd (respond fetch request inj orig))
      (fun e =>
         console_error [LText (str "AI path error; falling back to normal fetch:");
                        LError e] ;;
         fetch_call fetch request).
Proof.
  intros H1 H2. unfold agentPath.
  now rewrite (@tryBlock_phases ORGANIZATION_ID fetch parseURL resolveURL u request
                 t1 t2 inj orig H1 H2).
Qed.

End Serving.

(** X15. The injected answer.  When the store gave a fragment and the
    primary origin an HTML page with a readable body on a status that takes
    one, the handler fetches nothing more and answers with a response of its
    own: the status and status text of the page, the page with the fragment
    injected as its body, no [content-length], [User-Agent] added to [Vary],
    caching switched off, and every other header of the page as it was. *)
Theorem injection_served
    (ORGANIZATION_ID : text) (fetch : Request -> Promise Response)
    (parseURL : text -> option URL) (resolveURL : text -> text -> option URL)
    (randomUUID : text) (request : Request) (context : Context)
    (t1 t2 : list Event) (injectedHTML originalHTML : text) (origResp : Response) :
  reaches_detection ORGANIZATION_ID request ->
  classified request ->
  fetchFragment ORGANIZATION_ID fetch parseURL (url request) request
    = (t1, Normal injectedHTML) ->
  injectedHTML <> [] ->
  fetchOrigin fetch parseURL resolveURL (url request) request
    = (t2, Normal origResp) ->
  isHTMLResponse origResp = true ->
  Response_text origResp = Ok originalHTML ->
  200 <= status origResp <= 599 ->
  null_body_status (status origResp) = false ->
  exists final,
    handler ORGANIZATION_ID fetch parseURL resolveURL randomUUID request context
    = (prelude ORGANIZATION_ID fetch parseURL randomUUID request context
         ++ t1 ++ t2 ++ [injecting_line],
       Resolved final)
    /\ status final = status origResp
    /\ statusText final = statusText origResp
    /\ resp_body final = TextBody (injectHTML originalHTML injectedHTML)
    /\ Headers_get (resp_headers final) (str "content-length") = None
    /\ Headers_get (resp_headers final) (str "Vary")
       = Some (vary_after (Headers_get (resp_headers origResp) (str "Vary")))
    /\ Headers_get (resp_headers final) (str "Cache-Control")
       = Some (str "private, no-store, max-age=0")
    /\ Headers_get (resp_headers final) (str "Pragma") = Some (str "no-cache")
    /\ (forall name, other_name finalizer_names name = true ->
          Headers_get (resp_headers final) name
          = Headers_get (resp_headers origResp) name).
Proof.
  intros Hr Hc Hfrag Hne Ho Hh Ht Hst Hn.
  rewrite (@handler_classified ORGANIZATION_ID fetch parseURL resolveURL randomUUID
             request context Hr Hc).
  rewrite (@agentPath_phases ORGANIZATION_ID fetch parseURL resolveURL (url request)
             request t1 t2 injectedHTML origResp Hfrag Ho).
  unfold respond. rewrite (length_eqb_0 Hne), Hh. cbn [andb].
  unfold console_log. cbn [bind]. rewrite Ht. cbn [lift ret bind].
  rewrite (Response_new_page _ _ Hh Hst Hn). cbn [lift ret bind app].
  unfold finalizeResponse. cbn [status statusText resp_body resp_headers].
  assert (Response_new (TextBody (injectHTML originalHTML injectedHTML)) false
            (status origResp) (statusText origResp)
          = fun h => Ok (mkResponse (status origResp) (statusText origResp) h
                           (TextBody (injectHTML originalHTML injectedHTML)))) as ->.
  { unfold Response_new. destruct Hst as [Hlo Hhi].
    apply Nat.leb_le in Hlo, Hhi. now rewrite Hlo, Hhi, Hn. }
  cbn [lift ret bind fst snd app try_catch settle].
  eexists. split; [reflexivity|].
  cbn [status statusText resp_body resp_headers]. unfold Headers_copy.
  rewrite vary_after_spec. repeat split.
  - rewrite !Headers_get_set_other by reflexivity.
    now apply Headers_get_delete_same.
  - rewrite !Headers_get_set_other by reflexivity.
    rewrite Headers_get_set_same by reflexivity.
    now rewrite Headers_get_delete_other by reflexivity.
  - rewrite Headers_get_set_other by reflexivity.
    now rewrite Headers_get_set_same by reflexivity.
  - now rewrite Headers_get_set_same by reflexivity.
  - intros name Hname. apply other_name_finalizer in Hname as (H1 & H2 & H3 & H4).
    rewrite (Headers_get_set_other _ _ _ _ H4), (Headers_get_set_other _ _ _ _ H3),
      (Headers_get_set_other _ _ _ _ H2).
    now rewrite (Headers_get_delete_other _ _ _ H1).
Qed.

Lemma injection_served_witness :
  let fetch := ex_platform (ex_primary_page (str "text/html; charset=utf-8")) in
  exists final,
    snd (handler ex_org fetch ex_parseURL ex_resolveURL ex_uuid ex_request ex_context)
    = Resolved final
    /\ status final = 200
    /\ resp_body final
       = TextBody (str "<html><body><p>X</p><section id='optimized-for-ai'>ABC</section></body></html>")
    /\ Headers_get (resp_headers final) (str "Vary") = Some (str "User-Agent")
    /\ Headers_get (resp_headers final) (str "Cache-Control")
       = Some (str "private, no-store, max-age=0")
    /\ Headers_get (resp_headers final) (str "content-type")
       = Some (str "text/html; charset=utf-8").
Proof.
  intros fetch.
  destruct (@injection_served ex_org fetch ex_parseURL ex_resolveURL ex_uuid
              ex_request ex_context
              (fst (fetchFragment ex_org fetch ex_parseURL ex_url ex_request))
              (fst (fetchOrigin fetch ex_parseURL ex_resolveURL ex_url ex_request))
              (str "<section id='optimized-for-ai'>ABC</section>")
              (str "<html><body><p>X</p></body></html>")
              (ex_page (str "text/html; charset=utf-8")))
    as (final & Hh & Hs & _ & Hb & _ & Hv & Hc & _ & Hf).
  - repeat split.
  - reflexivity.
  - vm_compute. reflexivity.
  - discriminate.
  - vm_compute. reflexivity.
  - reflexivity.
  - reflexivity.
  - simpl. lia.
  - reflexivity.
  - exists final. rewrite Hh. split; [reflexivity|]. split; [exact Hs|].
    split; [exact Hb|]. split; [exact Hv|]. split; [exact Hc|].
    rewrite (Hf (str "content-type")); reflexivity.
Defined.



(** X17. A page that cannot be rebuilt is served as it is.  When there is a
    fragment and the page of the primary origin is HTML with a readable
    body, but its status takes no body (204, 205, 304) or lies outside
    200..599, building the injected response fails after the injection line
    is written; the failure is caught and the handler answers with the
    fetch of the inbound request. *)
Theorem unbuildable_page_falls_back
    (ORGANIZATION_ID : text) (fetch : Request -> Promise Response)
    (parseURL : text -> option URL) (resolveURL : text -> text -> option URL)
    (randomUUID : text) (request : Request) (context : Context)
    (t1 t2 : list Event) (injectedHTML originalHTML : text) (origResp : Response) :
  reaches_detection ORGANIZATION_ID request ->
  classified request ->
  fetchFragment ORGANIZATION_ID fetch parseURL (url request) request
    = (t1, Normal injectedHTML) ->
  injectedHTML <> [] ->
  fetchOrigin fetch parseURL resolveURL (url request) request
    = (t2, Normal origResp) ->
  isHTMLResponse origResp = true ->
  Response_text origResp = Ok originalHTML ->
  status origResp < 200 \/ 599 < status origResp
  \/ null_body_status (status origResp) = true ->
  exists e,
    handler ORGANIZATION_ID fetch parseURL resolveURL randomUUID request context
    = (prelude ORGANIZATION_ID fetch parseURL randomUUID request context
         ++ t1 ++ t2 ++ [injecting_line; catch_line e; EvFetch request],
       fetch request).
Proof.
  intros Hr Hc Hfrag Hne Ho Hh Ht Hst.
  rewrite (@handler_classified ORGANIZATION_ID fetch parseURL resolveURL randomUUID
             request context Hr Hc).
  rewrite (@agentPath_phases ORGANIZATION_ID fetch parseURL resolveURL (url request)
             request t1 t2 injectedHTML origResp Hfrag Ho).
  unfold respond. rewrite (length_eqb_0 Hne), Hh. cbn [andb].
  unfold console_log. cbn [bind]. rewrite Ht. cbn [lift ret bind].
  destruct (Response_new_refused origResp (injectHTML originalHTML injectedHTML) Hst)
    as [e ->].
  exists e. unfold console_error, fetch_call.
  cbn [lift throw bind fst snd app try_catch settle].
  now rewrite <- !app_assoc.
Qed.

Lemma unbuildable_page_falls_back_witness :
  let fetch := ex_platform ex_primary_not_modified in
  exists e,
    handler ex_org fetch ex_parseURL ex_resolveURL ex_uuid ex_request ex_context
    = (prelude ex_org fetch ex_parseURL ex_uuid ex_request ex_context
         ++ fst (fetchFragment ex_org fetch ex_parseURL ex_url ex_request)
         ++ fst (fetchOrigin fetch ex_parseURL ex_resolveURL ex_url ex_request)
         ++ [injecting_line; catch_line e; EvFetch ex_request],
       fetch ex_request).
Proof.
  intros fetch.
  apply (@unbuildable_page_falls_back ex_org fetch ex_parseURL ex_resolveURL ex_uuid
           ex_request ex_context
           (fst (fetchFragment ex_org fetch ex_parseURL ex_url ex_request))
           (fst (fetchOrigin fetch ex_parseURL ex_resolveURL ex_url ex_request))
           (str "<section id='optimized-for-ai'>ABC</section>")
           []
           (mkResponse 304 (str "Not Modified")
              [(str "Content-Type", str "text/html")] NoBody)).
  - repeat split.
  - reflexivity.
  - vm_compute. reflexivity.
  - discriminate.
  - vm_compute. reflexivity.
  - reflexivity.
  - reflexivity.
  - right. right. reflexivity.
Defined.

(** ** injectHTML *)






(** ** What goes to the secondary store *)

Lemma try_catch_trace {A : Type} (m : M A) (h : Error -> M A) :
  exists t, fst (try_catch m h) = fst m ++ t.
Proof.
  destruct m as [t0 [a|e|]]; cbn [try_catch fst];
    [exists []; now rewrite app_nil_r | | exists []; now rewrite app_nil_r].
  destruct (h e) as [t' c]. now exists t'.
Qed.

Lemma ALT_ORIGIN_configured (ORGANIZATION_ID : text) :
  organization_missing ORGANIZATION_ID = false ->
  ALT_ORIGIN ORGANIZATION_ID
  = str "https://salespeak-public-serving.s3.amazonaws.com/" ++ ORGANIZATION_ID.
Proof.
  unfold organization_missing, ALT_ORIGIN.
  destruct ORGANIZATION_ID; [discriminate | reflexivity].
Qed.

(** X19. For a detected visitor the handler asks the secondary store for
    the document at the organization's prefix followed by the path and the
    query of the visit, and the request it sends there carries the headers
    of the visitor: apart from the marker, every header of the inbound
    request, the host header included, reads the same on the store
    request. *)
Theorem store_request_carries_visitor_headers
    (ORGANIZATION_ID : text) (fetch : Request -> Promise Response)
    (parseURL : text -> option URL) (resolveURL : text -> text -> option URL)
    (randomUUID : text) (request : Request) (context : Context) (target : URL) :
  reaches_detection ORGANIZATION_ID request ->
  classified request ->
  parseURL (str "https://salespeak-public-serving.s3.amazonaws.com/"
              ++ ORGANIZATION_ID ++ pathname (url request) ++ search (url request))
    = Some target ->
  exists r,
    In r (fetches (fst (handler ORGANIZATION_ID fetch parseURL resolveURL randomUUID
                          request context)))
    /\ url r = target
    /\ method r = method request
    /\ forall name,
         name_eqb BYPASS_EDGE_FUNCTION_HEADER name = false ->
         Headers_get (headers r) name = Headers_get (headers request) name.
Proof.
  intros Hr Hc Hp.
  assert (ALT_ORIGIN ORGANIZATION_ID
          = str "https://salespeak-public-serving.s3.amazonaws.com/" ++ ORGANIZATION_ID)
    as Ealt by (apply ALT_ORIGIN_configured; apply Hr).
  exists (outbound target (ALT_ORIGIN ORGANIZATION_ID) request false).
  split; [|split; [reflexivity | split; [reflexivity|]]].
  - rewrite (@handler_classified ORGANIZATION_ID fetch parseURL resolveURL randomUUID
               request context Hr Hc).
    cbn [fst]. rewrite fetches_app. apply in_or_app. right.
    unfold agentPath.
    destruct (try_catch_trace
                (tryBlock ORGANIZATION_ID fetch parseURL resolveURL (url request) request)
                (fun e =>
                   console_error
                     [LText (str "AI path error; falling back to normal fetch:");
                      LError e] ;;
                   fetch_call fetch request)) as [t ->].
    rewrite fetches_app. apply in_or_app. left.
    unfold tryBlock. rewrite bind_trace, fetches_app. apply in_or_app. left.
    rewrite fetchFragment_fetches, fetchWithHost_fetches, Ealt, <- app_assoc, Hp.
    now left.
  - intros name Hn. unfold outbound. cbn [headers].
    now rewrite Headers_get_set_other.
Qed.

Lemma store_request_carries_visitor_headers_witness :
  exists r,
    In r (fetches (fst (handler ex_org (ex_platform ex_primary_down) ex_parseURL
                          ex_resolveURL ex_uuid ex_request ex_context)))
    /\ url r
       = mkURL (str "https://salespeak-public-serving.s3.amazonaws.com/acme/page")
           (str "https://salespeak-public-serving.s3.amazonaws.com")
           (str "/acme/page") [] []
    /\ method r = method ex_request
    /\ forall name,
         name_eqb BYPASS_EDGE_FUNCTION_HEADER name = false ->
         Headers_get (headers r) name = Headers_get (headers ex_request) name.
Proof.
  apply (@store_request_carries_visitor_headers ex_org (ex_platform ex_primary_down)
           ex_parseURL ex_resolveURL ex_uuid ex_request ex_context).
  - repeat split.
  - reflexivity.
  - reflexivity.
Defined.
